(** * nengo_bio: evaluation points, connection weights, two-compartment LIF

    A shallow embedding of
      - [nengo_bio/tests/test_neurons.py]  (the reference two-compartment
        LIF simulator),
      - [nengo_bio/neurons.py]             (the [LIF] and [TwoCompLIF]
        neuron types),
      - [nengo_bio/builder/connection.py]  (evaluation points of a
        MultiEnsemble and the weight solver's build step).

    Conventions.  Where a statement does not depend on rounding, Python
    floats are idealised as exact rationals [Q]; the statements proved over
    them compare numbers, follow branches and count, and keep a margin
    where a comparison could be decided by rounding.  Where the source
    relies on numpy's non-finite values (division of an array by zero) they
    are modelled explicitly by the type [fl].  Where a statement is about
    the computed numbers themselves ([LIF.gain_bias]), the code is modelled
    over binary64 floats ([LIF64]).  Python exceptions are values of the
    type [error]; a function that can raise returns a [result]. *)

From stdpp Require Import gmap list strings.
From Stdlib Require Import QArith Lqa.
From Stdlib Require Floats.

(** ** Shared vocabulary *)

(** The exceptions the modelled code can raise. *)
Inductive error :=
| BuildError_eval_point_count   (* connection.py:158 *)
| BuildError_non_dense          (* connection.py:175 *)
| ValidationError_max_rates     (* neurons.py:154 *)
| ValueError                    (* numpy: shapes do not fit; max() of an empty list *)
| IndexError
| KeyError
| TypeError
| ZeroDivisionError
| NameError (name : string)
| UnboundLocalError (name : string)
| AttributeError
| InvalidArray                  (* no Python exception: an array object whose buffer the
                                   modelled memory lacks *)
| ExternalError.                (* a function of nengo or the solver raised *)

Inductive result (A : Type) :=
| Ok (a : A)
| Err (e : error).
Arguments Ok {A} a.
Arguments Err {A} e.

Definition rbind {A B} (r : result A) (k : A -> result B) : result B :=
  match r with
  | Ok a => k a
  | Err e => Err e
  end.

Definition Qltb (a b : Q) : bool :=
  match (a ?= b)%Q with
  | Lt => true
  | _ => false
  end.

Definition Qleb (a b : Q) : bool := Qle_bool a b.

(** ** The reference simulator of [tests/test_neurons.py] *)

Module Reference.
Local Open Scope Q_scope.

(** The attributes of a [TwoCompLIF] instance ([neurons.py], lines 240-271).
    [C_som], [C_den], [g_leak_den] and [g_couple] are validated to be
    positive and [tau_ref], [tau_spike] to be non-negative by their
    [NumberParam] declarations; [subsample] is at least one. *)
Record TwoCompLIF := {
  C_som : Q;
  C_den : Q;
  g_leak_som : Q;
  g_leak_den : Q;
  g_couple : Q;
  E_rev_leak : Q;
  E_rev_exc : Q;
  E_rev_inh : Q;
  tau_ref : Q;
  tau_spike : Q;
  v_th : Q;
  v_reset : Q;
  v_spike : Q;
  subsample : nat
}.

(** [TwoCompLIF()] with the default arguments of its constructor. *)
Definition default_neuron : TwoCompLIF := {|
  C_som := 1 # 1000000000;
  C_den := 1 # 1000000000;
  g_leak_som := 50 # 1000000000;
  g_leak_den := 50 # 1000000000;
  g_couple := 50 # 1000000000;
  E_rev_leak := -65 # 1000;
  E_rev_exc := 20 # 1000;
  E_rev_inh := -75 # 1000;
  tau_ref := 2 # 1000;
  tau_spike := 1 # 1000;
  v_th := -50 # 1000;
  v_reset := -65 # 1000;
  v_spike := 20 # 1000;
  subsample := 10
|}.

(** The parameters for which the simulator divides by no zero (Python
    raises [ZeroDivisionError] otherwise). *)
Definition divides_safely (nrn : TwoCompLIF) (dt : Q) : Prop :=
  0 < dt /\ 0 < C_som nrn /\ 0 < C_den nrn.

(** [self.v_som, self.v_den, self.tref] *)
Record sim_state := {
  v_som : Q;
  v_den : Q;
  tref : Q
}.


(** [self.dt / self.ss] *)
Definition substep_width (dt : Q) (ss : nat) : Q := dt / inject_Z (Z.of_nat ss).

Definition d_v_som (nrn : TwoCompLIF) (s : sim_state) : Q :=
  (E_rev_leak nrn - v_som s) * g_leak_som nrn +
  (v_den s - v_som s) * g_couple nrn.

Definition d_v_den (nrn : TwoCompLIF) (gE gI : Q) (s : sim_state) : Q :=
  (E_rev_leak nrn - v_den s) * g_leak_den nrn +
  (E_rev_exc nrn - v_den s) * gE +
  (E_rev_inh nrn - v_den s) * gI +
  (v_som s - v_den s) * g_couple nrn.

(** Lines 34-44: both derivatives are taken from the old voltages, then
    both voltages advance by one forward-Euler substep. *)
Definition euler (nrn : TwoCompLIF) (dt : Q) (ss : nat) (gE gI : Q)
    (s : sim_state) : sim_state :=
  {| v_som := v_som s + substep_width dt ss * d_v_som nrn s / C_som nrn;
     v_den := v_den s + substep_width dt ss * d_v_den nrn gE gI s / C_den nrn;
     tref := tref s |}.

(** Lines 46-48: [if tref > 0.: tref -= dt / ss; v_som = ...]. *)
Definition refractory (nrn : TwoCompLIF) (dt : Q) (ss : nat)
    (s : sim_state) : sim_state :=
  if Qltb 0 (tref s) then
    let t := tref s - substep_width dt ss in
    {| v_som := if Qltb (tau_ref nrn) t then v_spike nrn else v_reset nrn;
       v_den := v_den s;
       tref := t |}
  else s.

(** The test of line 50: [v_som > nrn.v_th and tref <= 0.]. *)
Definition crosses (nrn : TwoCompLIF) (s : sim_state) : bool :=
  Qltb (v_th nrn) (v_som s) && Qleb (tref s) 0.

(** Lines 50-53; [out] is the one-element output buffer. *)
Definition spike (nrn : TwoCompLIF) (dt : Q) (st : sim_state * Q)
    : sim_state * Q :=
  if crosses nrn (fst st) then
    ({| v_som := if Qltb 0 (tau_spike nrn) then v_spike nrn else v_reset nrn;
        v_den := v_den (fst st);
        tref := tau_ref nrn + tau_spike nrn |},
     1 / dt)
  else st.

(** The state at the end of a substep, before the threshold test. *)
Definition end_of_substep (nrn : TwoCompLIF) (dt : Q) (ss : nat) (gE gI : Q)
    (s : sim_state) : sim_state :=
  refractory nrn dt ss (euler nrn dt ss gE gI s).

(** One iteration of the loop [for s in range(self.ss)]. *)
Definition substep (nrn : TwoCompLIF) (dt : Q) (ss : nat) (gE gI : Q)
    (st : sim_state * Q) : sim_state * Q :=
  spike nrn dt (end_of_substep nrn dt ss gE gI (fst st), snd st).

(** The first [k] iterations of the loop. *)
Fixpoint substeps (k : nat) (nrn : TwoCompLIF) (dt : Q) (ss : nat) (gE gI : Q)
    (st : sim_state * Q) : sim_state * Q :=
  match k with
  | O => st
  | S k' => substep nrn dt ss gE gI (substeps k' nrn dt ss gE gI st)
  end.

(** [ReferenceTwoCompLIFSimulator.__call__(out, gE, gI)]: the new state
    and the contents of the buffer [out] afterwards. *)
Definition call (nrn : TwoCompLIF) (dt : Q) (ss : nat) (out gE gI : Q)
    (s : sim_state) : sim_state * Q :=
  substeps ss nrn dt ss gE gI (s, out).

(** Whether the [k]-th substep (counted from 0) of a call credits a
    spike. *)
Definition crosses_at (nrn : TwoCompLIF) (dt : Q) (ss : nat) (out gE gI : Q)
    (s : sim_state) (k : nat) : bool :=
  crosses nrn
    (end_of_substep nrn dt ss gE gI (fst (substeps k nrn dt ss gE gI (s, out)))).


(** *** Vocabulary of the statements and examples *)

(** A neuron above threshold, not refractory. *)
Definition above_threshold : sim_state :=
  {| v_som := -40 # 1000; v_den := -40 # 1000; tref := 0 |}.


End Reference.

(** ** [LIF.gain_bias] and [LIF.max_rates_intercepts] of [neurons.py] *)

Module LIF.
Import Reference.
Local Open Scope Q_scope.

(** A numpy float: a finite value, an infinity or not-a-number.  Signed
    zeros are not modelled: every zero is [+0.0]. *)
Inductive fl :=
| Fin (q : Q)
| PInf
| NInf
| NaN.

(** [np.isfinite] *)
Definition isfinite (x : fl) : bool :=
  match x with
  | Fin _ => true
  | _ => false
  end.

(** The infinity with the sign of a comparison against zero; [0 / 0] and
    [0 * inf] are not-a-number. *)
Definition inf_of (c : comparison) : fl :=
  match c with
  | Gt => PInf
  | Lt => NInf
  | Eq => NaN
  end.

Definition fneg (x : fl) : fl :=
  match x with
  | Fin q => Fin (- q)
  | PInf => NInf
  | NInf => PInf
  | NaN => NaN
  end.

Definition fadd (x y : fl) : fl :=
  match x, y with
  | Fin a, Fin b => Fin (a + b)
  | NaN, _ | _, NaN => NaN
  | PInf, NInf | NInf, PInf => NaN
  | PInf, _ | _, PInf => PInf
  | NInf, _ | _, NInf => NInf
  end.

Definition fsub (x y : fl) : fl := fadd x (fneg y).

Definition fmul (x y : fl) : fl :=
  match x, y with
  | Fin a, Fin b => Fin (a * b)
  | NaN, _ | _, NaN => NaN
  | Fin a, PInf | PInf, Fin a => inf_of (a ?= 0)
  | Fin a, NInf | NInf, Fin a => inf_of (0 ?= a)
  | PInf, PInf | NInf, NInf => PInf
  | PInf, NInf | NInf, PInf => NInf
  end.

(** Division of numpy arrays: a zero divisor gives an infinity or
    not-a-number (and a [RuntimeWarning]), never an exception. *)
Definition fdiv (x y : fl) : fl :=
  match x, y with
  | Fin a, Fin b => if Qeq_bool b 0 then inf_of (a ?= 0) else Fin (a / b)
  | NaN, _ | _, NaN => NaN
  | Fin _, _ => Fin 0
  | _, PInf | _, NInf => NaN
  | PInf, Fin b => if Qltb b 0 then NInf else PInf
  | NInf, Fin b => if Qltb b 0 then PInf else NInf
  end.

(** [==] on floats: not-a-number equals nothing. *)
Definition feq (x y : fl) : bool :=
  match x, y with
  | Fin a, Fin b => Qeq_bool a b
  | PInf, PInf | NInf, NInf => true
  | _, _ => false
  end.

(** An arithmetic operator on two one-dimensional arrays, with numpy's
    broadcasting of an array of length one. *)
Definition broadcast2 {A B C} (f : A -> B -> C) (xs : list A) (ys : list B)
    : result (list C) :=
  if Nat.eqb (length xs) (length ys) then Ok (zip_with f xs ys)
  else
    match xs, ys with
    | [x], _ => Ok (map (f x) ys)
    | _, [y] => Ok (map (fun x => f x y) xs)
    | _, _ => Err ValueError
    end.

(** [LIF.threshold_current] *)
Definition threshold_current (nrn : TwoCompLIF) : Q :=
  (v_th nrn - E_rev_leak nrn) * g_leak_som nrn.

(** [LIF._lif_parameters]: [(tau_ref, tau_rc, i_th)].  [g_leak_som] is not
    validated (its [NumberParam] is wrapped in a tuple by a trailing
    comma), so the division can raise. *)
Definition _lif_parameters (nrn : TwoCompLIF) : result (Q * Q * Q) :=
  if Qeq_bool (g_leak_som nrn) 0 then Err ZeroDivisionError
  else Ok (tau_spike nrn + tau_ref nrn,
           C_som nrn / g_leak_som nrn,
           threshold_current nrn).

Section RateModel.

(** [lif_utils.lif_rate(j, tau_ref, tau_rc)] and
    [lif_utils.lif_rate_inv(a, tau_ref, tau_rc)], applied elementwise:
    the closed-form rate of a LIF neuron and its inverse.  The module
    [nengo_bio.internal.lif_utils] is not among the sources; the two
    functions are parameters. *)
Variable lif_rate : fl -> Q -> Q -> fl.
Variable lif_rate_inv : Q -> Q -> Q -> Q.

(** [LIF._lif_rate] on the array [J] *)
Definition _lif_rate (nrn : TwoCompLIF) (J : list fl) : result (list fl) :=
  rbind (_lif_parameters nrn) (fun '(tau_ref, tau_rc, i_th) =>
  Ok (map (fun j => lif_rate (fdiv j (Fin i_th)) tau_ref tau_rc) J)).

(** [LIF._lif_rate_inv] on the array [a] *)
Definition _lif_rate_inv (nrn : TwoCompLIF) (a : list Q) : result (list Q) :=
  rbind (_lif_parameters nrn) (fun '(tau_ref, tau_rc, i_th) =>
  Ok (map (fun x => lif_rate_inv x tau_ref tau_rc * i_th) a)).

(** [np.any(max_rates > inv_tau_ref)] with
    [inv_tau_ref = 1. / tau_ref if tau_ref > 0. else np.inf]. *)
Definition exceeds_attainable (tau_ref : Q) (max_rates : list Q) : bool :=
  if Qltb 0 tau_ref then existsb (fun r => Qltb (1 / tau_ref) r) max_rates
  else false.

(** [LIF.gain_bias(max_rates, intercepts)] *)
Definition gain_bias (nrn : TwoCompLIF) (max_rates intercepts : list Q)
    : result (list fl * list fl) :=
  rbind (_lif_parameters nrn) (fun '(tau_ref, _, i_th) =>
  if exceeds_attainable tau_ref max_rates then Err ValidationError_max_rates
  else
    rbind (_lif_rate_inv nrn max_rates) (fun i_max =>
    rbind (broadcast2 fdiv (map (fun x => Fin (x - i_th)) i_max)
             (map (fun c => Fin (1 - c)) intercepts)) (fun gain =>
    rbind (broadcast2 fsub (map Fin i_max) gain) (fun bias =>
    Ok (gain, bias))))).

(** [LIF.max_rates_intercepts(gain, bias)].  The module never imports
    [warnings], so evaluating [warnings.warn] raises [NameError]. *)
Definition max_rates_intercepts (nrn : TwoCompLIF) (gain bias : list fl)
    : result (list fl * list fl) :=
  rbind (broadcast2 fadd gain bias) (fun J =>
  rbind (_lif_rate nrn J) (fun max_rates =>
  rbind (broadcast2 fdiv
           (map (fun b => fsub (Fin (threshold_current nrn)) b) bias) gain)
        (fun intercepts =>
  if negb (forallb isfinite intercepts) then Err (NameError "warnings")
  else Ok (max_rates, intercepts)))).

End RateModel.

(** [LIF.rates(x, gain, bias)] on one-dimensional arrays:
    [self._lif_rate(gain * x + bias)]. *)
Definition rates (lif_rate : fl -> Q -> Q -> fl) (nrn : TwoCompLIF)
    (x gain bias : list fl) : result (list fl) :=
  rbind (broadcast2 fmul gain x) (fun gx =>
  rbind (broadcast2 fadd gx bias) (fun J =>
  _lif_rate lif_rate nrn J)).

(** *** Vocabulary of the statements and examples *)

(** A stand-in for [lif_utils.lif_rate_inv] in the examples. *)
Definition rate_inv_example (a tau_ref tau_rc : Q) : Q := 3386 # 1000.

(** A stand-in for [lif_utils.lif_rate] in the examples. *)
Definition rate_example (j : fl) (tau_ref tau_rc : Q) : fl := j.

End LIF.

(** ** [LIF.gain_bias] of [neurons.py] in binary64 *)

Module LIF64.
Import Floats.
Local Open Scope float_scope.
#[local] Set Warnings "-inexact-float".

(** The attributes of a [LIF] instance ([neurons.py], lines 102-110) as
    Python floats, that is binary64 numbers. *)
Record LIF := {
  C_som : float;
  g_leak_som : float;
  E_rev_leak : float;
  tau_ref : float;
  tau_spike : float;
  v_th : float;
  v_reset : float;
  v_spike : float;
  subsample : nat
}.

(** [LIF()] with the default arguments of its constructor (lines 90-99). *)
Definition default_lif : LIF := {|
  C_som := 1e-9;
  g_leak_som := 50e-9;
  E_rev_leak := -65e-3;
  tau_ref := 2e-3;
  tau_spike := 1e-3;
  v_th := -50e-3;
  v_reset := -65e-3;
  v_spike := 20e-3;
  subsample := 10
|}.

(** [LIF.threshold_current] *)
Definition threshold_current (nrn : LIF) : float :=
  (v_th nrn - E_rev_leak nrn) * g_leak_som nrn.

(** [LIF._lif_parameters]: Python's float division raises
    [ZeroDivisionError] for a divisor that equals zero (of either sign) and
    rounds otherwise. *)
Definition _lif_parameters (nrn : LIF) : result (float * float * float) :=
  if g_leak_som nrn =? 0 then Err ZeroDivisionError
  else Ok (tau_spike nrn + tau_ref nrn,
           C_som nrn / g_leak_som nrn,
           threshold_current nrn).

(** [1. / tau_ref if tau_ref > 0. else np.inf] *)
Definition inv_tau_ref (tau_ref : float) : float :=
  if 0 <? tau_ref then 1 / tau_ref else infinity.

Section RateModel.

(** [lif_utils.lif_rate_inv(a, tau_ref, tau_rc)], elementwise; the module
    is not among the sources and the function is a parameter.  Its values
    are binary64 numbers, infinities and not-a-number included. *)
Variable lif_rate_inv : float -> float -> float -> float.

(** [LIF._lif_rate_inv] on the array [a] *)
Definition _lif_rate_inv (nrn : LIF) (a : list float) : result (list float) :=
  rbind (_lif_parameters nrn) (fun '(tau_ref, tau_rc, i_th) =>
  Ok (map (fun x => lif_rate_inv x tau_ref tau_rc * i_th) a)).

(** [LIF.gain_bias(max_rates, intercepts)] on one-dimensional arrays of
    [dtype=float]: numpy's elementwise operations are the binary64
    operations, a division by zero gives an infinity or not-a-number, and a
    comparison with not-a-number is false. *)
Definition gain_bias (nrn : LIF) (max_rates intercepts : list float)
    : result (list float * list float) :=
  rbind (_lif_parameters nrn) (fun '(tau_ref, _, i_th) =>
  if existsb (fun r => inv_tau_ref tau_ref <? r) max_rates
  then Err ValidationError_max_rates
  else
    rbind (_lif_rate_inv nrn max_rates) (fun i_max =>
    rbind (LIF.broadcast2 PrimFloat.div (map (fun x => x - i_th) i_max)
             (map (fun c => 1 - c) intercepts)) (fun gain =>
    rbind (LIF.broadcast2 PrimFloat.sub i_max gain) (fun bias =>
    Ok (gain, bias))))).

End RateModel.

(** *** Vocabulary of the statements and examples *)

(** A stand-in for [lif_utils.lif_rate_inv] in the examples: the value of
    the closed-form inverse [1 / (1 - exp ((tau_ref - 1 / a) / tau_rc))] at
    [a = 200], [tau_ref = 0.003] and [tau_rc = 0.02], to the nearest
    binary64 number. *)
Definition rate_inv_at_200 (a tau_ref tau_rc : float) : float :=
  10.508331944775044.

End LIF64.

(** ** [get_multi_ensemble_eval_points] of [builder/connection.py] *)

Module EvalPoints.
Local Open Scope nat_scope.

(** A two-dimensional numpy array of shape [(length rows, shape1)]. *)
Record array2 := {
  shape1 : nat;
  rows : list (list Q)
}.

Definition shape0 (a : array2) : nat := length (rows a).

(** Every row has [shape1] entries, as in every numpy array. *)
Definition well_shaped (a : array2) : Prop :=
  Forall (fun r => length r = shape1 a) (rows a).

(** A [numpy.random.RandomState]: the numbers it will produce and how many
    it has produced.  Every sequence of draws is the behaviour of some
    stream. *)
Record RandomState := {
  stream : nat -> nat;
  position : nat
}.

(** [rng.randint(low, high, n)]: [n] integers of [[low, high)].  numpy
    refuses an empty range unless no sample is taken. *)
Definition randint (rng : RandomState) (low high n : nat)
    : result (list nat * RandomState) :=
  if n =? 0 then Ok ([], rng)
  else if high <=? low then Err ValueError
  else
    Ok (map (fun k => low + stream rng (position rng + k) mod (high - low))
          (seq 0 n),
        {| stream := stream rng; position := position rng + n |}).

(** [A[idx]] for a list of row indices. *)
Fixpoint take_rows (rs : list (list Q)) (idx : list nat)
    : result (list (list Q)) :=
  match idx with
  | [] => Ok []
  | i :: idx' =>
      match rs !! i with
      | None => Err IndexError
      | Some r => rbind (take_rows rs idx') (fun t => Ok (r :: t))
      end
  end.

(** The local function [choice(A, n)] (lines 38-39). *)
Definition choice (a : array2) (n : nat) (rng : RandomState)
    : result (array2 * RandomState) :=
  rbind (randint rng 0 (shape0 a) n) (fun '(idx, rng') =>
  rbind (take_rows (rows a) idx) (fun rs =>
  Ok ({| shape1 := shape1 a; rows := rs |}, rng'))).

(** [np.empty((n, d))]; the contents are arbitrary, here zero. *)
Definition empty (n d : nat) : array2 :=
  {| shape1 := d; rows := repeat (repeat 0%Q d) n |}.

(** numpy's broadcasting of one axis: the length fits, or it is one. *)
Definition broadcast_axis {A} (n : nat) (l : list A) : option (list A) :=
  if length l =? n then Some l
  else
    match l with
    | [x] => Some (repeat x n)
    | _ => None
    end.

(** [row[c0:c1] = src] for a source of the slice's length. *)
Definition splice (row : list Q) (c0 c1 : nat) (src : list Q) : list Q :=
  take c0 row ++ src ++ drop c1 row.

(** [dst[r0:r1, c0:c1] = src]: the slice bounds are clipped to the shape of
    [dst], the source is broadcast to the slice, and a source that does not
    fit raises [ValueError]. *)
Definition assign_block (dst : array2) (r0 r1 c0 c1 : nat) (src : array2)
    : result array2 :=
  let r0' := Nat.min r0 (shape0 dst) in
  let r1' := Nat.max r0' (Nat.min r1 (shape0 dst)) in
  let c0' := Nat.min c0 (shape1 dst) in
  let c1' := Nat.max c0' (Nat.min c1 (shape1 dst)) in
  if negb ((shape1 src =? c1' - c0') || (shape1 src =? 1)) then Err ValueError
  else
    match broadcast_axis (r1' - r0') (rows src) with
    | None => Err ValueError
    | Some srows =>
        let widen (r : list Q) :=
          if shape1 src =? c1' - c0' then r
          else repeat (nth 0 r 0%Q) (c1' - c0') in
        Ok {| shape1 := shape1 dst;
              rows :=
                take r0' (rows dst) ++
                zip_with (fun row s => splice row c0' c1' (widen s))
                  (take (r1' - r0') (drop r0' (rows dst))) srows ++
                drop r1' (rows dst) |}
    end.

(** [np.concatenate(arrays, axis=0)] *)
Definition concatenate0 (ps : list array2) : result array2 :=
  match ps with
  | [] => Err ValueError
  | p :: ps' =>
      if forallb (fun q => shape1 q =? shape1 p) ps' then
        Ok {| shape1 := shape1 p; rows := concat (map rows ps) |}
      else Err ValueError
  end.

(** Python's [max] of a list. *)
Definition py_max (l : list nat) : result nat :=
  match l with
  | [] => Err ValueError
  | x :: l' => Ok (fold_left Nat.max l' x)
  end.

(** A [MultiEnsemble]: [operator], [objs] and [dimensions].  With
    [OP_NONE] the only object is an ensemble (here its key in
    [model.params]). *)
Local Unset Elimination Schemes.
Inductive MultiEnsemble :=
| OP_NONE (ens : nat) (dimensions : nat)
| OP_STACK (objs : list MultiEnsemble) (dimensions : nat)
| OP_JOIN (objs : list MultiEnsemble) (dimensions : nat).
Local Set Elimination Schemes.

Definition dimensions (mens : MultiEnsemble) : nat :=
  match mens with
  | OP_NONE _ d => d
  | OP_STACK _ d => d
  | OP_JOIN _ d => d
  end.

(** The loop of lines 55-59: the points of every object in turn, drawn
    from the one generator. *)
Definition eval_children
    (f : MultiEnsemble -> RandomState -> result (array2 * RandomState))
    : list MultiEnsemble -> RandomState -> result (list array2 * RandomState) :=
  fix go objs rng :=
    match objs with
    | [] => Ok ([], rng)
    | o :: objs' =>
        rbind (f o rng) (fun '(p, rng1) =>
        rbind (go objs' rng1) (fun '(ps, rng2) => Ok (p :: ps, rng2)))
    end.

(** The loop of lines 71-85 over the objects' points, from column [d]. *)
Fixpoint stack_loop (n_eval_points max_n_pnts : nat) (ps : list array2)
    (d : nat) (pnts : array2) (rng : RandomState)
    : result (array2 * RandomState) :=
  match ps with
  | [] => Ok (pnts, rng)
  | p :: ps' =>
      let n_pnts := shape0 p in
      let n_dims := shape1 p in
      rbind
        (if max_n_pnts <=? n_eval_points then
           rbind (assign_block pnts 0 n_pnts d (d + n_dims) p) (fun pnts1 =>
           rbind (choice p (n_eval_points - n_pnts) rng) (fun '(extra, rng1) =>
           rbind (assign_block pnts1 n_pnts (shape0 pnts1) d (d + n_dims) extra)
             (fun pnts2 => Ok (pnts2, rng1))))
         else
           rbind (choice p n_eval_points rng) (fun '(sel, rng1) =>
           rbind (assign_block pnts 0 (shape0 pnts) d (d + n_dims) sel)
             (fun pnts1 => Ok (pnts1, rng1))))
        (fun '(pnts', rng') =>
           stack_loop n_eval_points max_n_pnts ps' (d + n_dims) pnts' rng')
  end.

(** [get_multi_ensemble_eval_points(model, mens, rng, n_eval_points)];
    [params] maps an ensemble to [model.params[ens].eval_points]. *)
Fixpoint get_multi_ensemble_eval_points (params : gmap nat array2)
    (mens : MultiEnsemble) (rng : RandomState) (n_eval_points : option nat)
    : result (array2 * RandomState) :=
  match mens with
  | OP_NONE ens _ =>
      match params !! ens with
      | None => Err KeyError
      | Some pnts =>
          match n_eval_points with
          | None => Ok (pnts, rng)
          | Some n => choice pnts n rng
          end
      end
  | OP_STACK objs dims =>
      rbind (eval_children
               (fun o r => get_multi_ensemble_eval_points params o r n_eval_points)
               objs rng) (fun '(pnts_per_obj, rng1) =>
      rbind (py_max (map shape0 pnts_per_obj)) (fun max_n_pnts =>
      let n := default max_n_pnts n_eval_points in
      stack_loop n max_n_pnts pnts_per_obj 0 (empty max_n_pnts dims) rng1))
  | OP_JOIN objs dims =>
      rbind (eval_children
               (fun o r => get_multi_ensemble_eval_points params o r n_eval_points)
               objs rng) (fun '(pnts_per_obj, rng1) =>
      rbind (py_max (map shape0 pnts_per_obj)) (fun max_n_pnts =>
      let n := default max_n_pnts n_eval_points in
      rbind (concatenate0 pnts_per_obj) (fun all => choice all n rng1)))
  end.

(** The points of the objects of a stack or join, as the loop of lines
    55-59 computes them. *)
Definition children_points (params : gmap nat array2)
    (objs : list MultiEnsemble) (rng : RandomState) (n_eval_points : option nat)
    : result (list array2 * RandomState) :=
  eval_children
    (fun o r => get_multi_ensemble_eval_points params o r n_eval_points)
    objs rng.

(** Modelled from the spec: the class [MultiEnsemble] is not among the
    sources.  Its invariants (3, "Population node"): the dimensions of a
    stack are the sum of its children's, the children of a join share the
    join's dimensions, a leaf has the dimensions of its ensemble.  With
    them, what the function needs in order to return at all: a stack or
    join has at least one object ([max] of an empty list raises), and an
    ensemble is a key of [model.params] with at least one evaluation point
    ([randint] refuses an empty range). *)
Fixpoint well_formed (params : gmap nat array2) (mens : MultiEnsemble) : Prop :=
  match mens with
  | OP_NONE ens d =>
      exists pnts, params !! ens = Some pnts /\ well_shaped pnts /\
                   shape1 pnts = d /\ 1 <= shape0 pnts
  | OP_STACK objs d =>
      objs <> [] /\ d = list_sum (map dimensions objs) /\
      (fix all (l : list MultiEnsemble) : Prop :=
         match l with
         | [] => True
         | o :: l' => well_formed params o /\ all l'
         end) objs
  | OP_JOIN objs d =>
      objs <> [] /\
      (fix all (l : list MultiEnsemble) : Prop :=
         match l with
         | [] => True
         | o :: l' => (dimensions o = d /\ well_formed params o) /\ all l'
         end) objs
  end.

(** The columns [[off, off + w)] of an array, row by row. *)
Definition block (a : array2) (off w : nat) : list (list Q) :=
  map (fun r => take w (drop off r)) (rows a).

(** The number of rows asked of a stack or join: [n_eval_points], or the
    largest number of points of an object. *)
Definition target_count (n_eval_points : option nat) (ps : list array2) : nat :=
  match n_eval_points with
  | Some n => n
  | None => list_max (map shape0 ps)
  end.

(** *** Vocabulary of the statements and examples *)

(** Rows [rs] with the columns [[d, d + w)] of row [r] replaced by the
    [r]-th row of [blk]. *)
Definition paste (d w : nat) (rs blk : list (list Q)) : list (list Q) :=
  zip_with (fun row s => splice row d (d + w) s) rs blk.

(** Blocks (width and rows) pasted one after the other from column [d]. *)
Fixpoint paste_all (d : nat) (rs : list (list Q))
    (bs : list (nat * list (list Q))) : list (list Q) :=
  match bs with
  | [] => rs
  | (w, blk) :: bs' => paste_all (d + w) (paste d w rs blk) bs'
  end.

(** A block of [R] rows of its width. *)
Definition fits (R : nat) (b : nat * list (list Q)) : Prop :=
  length (snd b) = R /\ Forall (fun r => length r = fst b) (snd b).

(** What the loop needs of an object's points when [R] rows are built. *)
Definition fillable (R : nat) (p : array2) : Prop :=
  well_shaped p /\ shape0 p <= R /\ (shape0 p = R \/ 1 <= shape0 p).

(** The extra rows drawn for an object: as many as are missing, each one
    of the object's own points. *)
Definition resampled (R : nat) (p : array2) (x : list (list Q)) : Prop :=
  length x = R - shape0 p /\ Forall (fun r => r ∈ rows p) x.

Definition blocks_of (ps : list array2) (extras : list (list (list Q)))
    : list (nat * list (list Q)) :=
  zip_with (fun p x => (shape1 p, rows p ++ x)) ps extras.

(** The shape of the points of an object when [n] points are asked for. *)
Definition points_of (n : option nat) (o : MultiEnsemble) (p : array2) : Prop :=
  well_shaped p /\ shape1 p = dimensions o /\
  match n with
  | Some k => shape0 p = k
  | None => 1 <= shape0 p
  end.

(** Two ensembles of one dimension with two and three evaluation points. *)
Definition example_params : gmap nat array2 :=
  <[0 := {| shape1 := 1; rows := [[1%Q]; [2%Q]] |}]>
  (<[1 := {| shape1 := 1; rows := [[3%Q]; [4%Q]; [5%Q]] |}]> ∅).

Definition example_rng : RandomState := {| stream := fun k => k; position := 0 |}.

Definition example_objs : list MultiEnsemble := [OP_NONE 0 1; OP_NONE 1 1].

(** How many numbers the generator hands out when [k] points are asked
    of a tree: [k] for every ensemble and [k] more for every join. *)
Fixpoint draws (k : nat) (mens : MultiEnsemble) : nat :=
  match mens with
  | OP_NONE _ _ => k
  | OP_STACK objs _ => list_sum (map (draws k) objs)
  | OP_JOIN objs _ => list_sum (map (draws k) objs) + k
  end.

(** Every ensemble of the tree is a key of [model.params], and every stack
    and join has an object. *)
Fixpoint resolvable (params : gmap nat array2) (mens : MultiEnsemble) : Prop :=
  match mens with
  | OP_NONE ens _ => is_Some (params !! ens)
  | OP_STACK objs _ | OP_JOIN objs _ =>
      objs <> [] /\
      (fix all (l : list MultiEnsemble) : Prop :=
         match l with
         | [] => True
         | o :: l' => resolvable params o /\ all l'
         end) objs
  end.

(** An ensemble of one dimension and one of two. *)
Definition mixed_params : gmap nat array2 :=
  <[0 := {| shape1 := 1; rows := [[1%Q]; [2%Q]] |}]>
  (<[1 := {| shape1 := 2; rows := [[3%Q; 4%Q]] |}]> ∅).

End EvalPoints.

(** ** [build_solver] of [builder/connection.py] *)

Module Builder.
Import EvalPoints.
Local Open Scope nat_scope.

(** *** Arrays in memory *)

(** The buffers of the arrays the weights live in; a buffer is addressed by
    its index, and a new one is appended. *)
Definition heap := list array2.

(** A numpy array object: an array that owns a buffer, a row-slice
    [a[n0:n1]] of an array or a transpose [a.T]; slices and transposes are
    views and share the buffer of [a]. *)
Inductive ndarray :=
| Owner (buffer : nat)
| RowSlice (a : ndarray) (n0 n1 : nat)
| Transpose (a : ndarray).

(** [a.base]: the buffer behind a view. *)
Fixpoint base (a : ndarray) : nat :=
  match a with
  | Owner l => l
  | RowSlice a' _ _ => base a'
  | Transpose a' => base a'
  end.

(** [np.shares_memory] for the arrays above. *)
Definition shares_memory (a b : ndarray) : bool := base a =? base b.

Definition column (m : array2) (j : nat) : list Q :=
  map (fun r => nth j r 0%Q) (rows m).

Definition transpose (m : array2) : array2 :=
  {| shape1 := shape0 m; rows := map (column m) (seq 0 (shape1 m)) |}.

(** [m[n0:n1]]: the bounds are clipped to the number of rows. *)
Definition slice_rows (m : array2) (n0 n1 : nat) : array2 :=
  {| shape1 := shape1 m; rows := take (n1 - n0) (drop n0 (rows m)) |}.

(** The contents seen through an array object. *)
Fixpoint read (h : heap) (a : ndarray) : option array2 :=
  match a with
  | Owner l => h !! l
  | RowSlice a' n0 n1 => (fun m => slice_rows m n0 n1) <$> read h a'
  | Transpose a' => transpose <$> read h a'
  end.

Definition set_entry (m : array2) (i j : nat) (v : Q) : array2 :=
  {| shape1 := shape1 m;
     rows := alter (fun r => <[j := v]> r) i (rows m) |}.

(** [a[i, j] = v]: the write lands in the buffer behind [a]. *)
Fixpoint write (h : heap) (a : ndarray) (i j : nat) (v : Q) : heap :=
  match a with
  | Owner l => alter (fun m => set_entry m i j v) l h
  | RowSlice a' n0 _ => write h a' (n0 + i) j v
  | Transpose a' => write h a' j i v
  end.

(** A new array with the given contents. *)
Definition alloc (h : heap) (m : array2) : ndarray * heap :=
  (Owner (length h), h ++ [m]).

(** *** Matrices *)

Definition neg (m : array2) : array2 :=
  {| shape1 := shape1 m; rows := map (map Qopp) (rows m) |}.

(** [m[:, d0:d1]] *)
Definition slice_columns (m : array2) (d0 d1 : nat) : array2 :=
  {| shape1 := Nat.min d1 (shape1 m) - Nat.min d0 (shape1 m);
     rows := map (fun r => take (d1 - d0) (drop d0 r)) (rows m) |}.

(** [np.concatenate(arrays, axis=1)]: the arrays must have the same number
    of rows. *)
Definition concatenate1 (ps : list array2) : result array2 :=
  match ps with
  | [] => Err ValueError
  | p :: ps' =>
      if forallb (fun q => shape0 q =? shape0 p) ps' then
        Ok {| shape1 := list_sum (map shape1 ps);
              rows := fold_right (zip_with app) (map (fun _ => []) (rows p))
                        (map rows ps) |}
      else Err ValueError
  end.

(** [np.concatenate] of one-dimensional arrays. *)
Definition concatenate_1d {A} (ls : list (list A)) : result (list A) :=
  match ls with
  | [] => Err ValueError
  | _ => Ok (concat ls)
  end.

Definition dot_product (r c : list Q) : Q :=
  fold_right Qplus 0%Q (zip_with Qmult r c).

(** [np.dot(a, b)] and [a @ b] for two-dimensional arrays. *)
Definition matmul (a b : array2) : result array2 :=
  if shape1 a =? shape0 b then
    Ok {| shape1 := shape1 b;
          rows := map (fun r => map (fun j => dot_product r (column b j))
                                  (seq 0 (shape1 b))) (rows a) |}
  else Err ValueError.

(** [m * v] for a matrix and a vector, and [m += v] ([inplace]): the vector
    is broadcast along the rows; an in-place operation cannot widen [m]. *)
Definition rowwise (f : Q -> Q -> Q) (inplace : bool) (m : array2) (v : list Q)
    : result array2 :=
  if shape1 m =? length v then
    Ok {| shape1 := shape1 m; rows := map (fun r => zip_with f r v) (rows m) |}
  else
    match v with
    | [x] => Ok {| shape1 := shape1 m; rows := map (map (fun y => f y x)) (rows m) |}
    | _ =>
        if (shape1 m =? 1) && negb inplace then
          Ok {| shape1 := length v;
                rows := map (fun r => map (f (nth 0 r 0%Q)) v) (rows m) |}
        else Err ValueError
    end.

(** *** The objects of a model *)

Inductive synapse_type :=
| Excitatory
| Inhibitory.

(** [BuiltConnection] (lines 24-31) *)
Record BuiltConnection := {
  weights_exc : option ndarray;
  weights_inh : option ndarray;
  pre_idx_dim_map : list (nat * nat);
  pre_idx_neurons_map : list (nat * nat)
}.

(** [bc.weights[synapse_type]] *)
Definition weights (bc : BuiltConnection) (t : synapse_type) : option ndarray :=
  match t with
  | Excitatory => weights_exc bc
  | Inhibitory => weights_inh bc
  end.

(** [BuiltConnection()] *)
Definition new_built_connection : BuiltConnection :=
  {| weights_exc := None; weights_inh := None;
     pre_idx_dim_map := []; pre_idx_neurons_map := [] |}.

(** What [build_solver] reads of a built ensemble, [model.params[ens]]. *)
Record BuiltEnsemble := {
  eval_points : array2;
  synapse_types_exc : list bool;
  synapse_types_inh : list bool;
  encoders : array2;
  gain : list Q;
  bias : list Q
}.

(** An ensemble: its identity, [size_out] and [neurons.size_out]. *)
Record Ensemble := {
  ens_id : nat;
  size_out : nat;
  neurons_size_out : nat
}.

(** [conn.transform] *)
Inductive Transform :=
| Dense (matrix : array2)
| NotDense.

(** What [build_solver] reads of a [nengo_bio.Connection]. *)
Record Connection := {
  conn_id : nat;
  pre : list Ensemble;
  pre_obj : list Ensemble;
  post_obj : Ensemble;
  conn_eval_points : option array2;
  decode_bias : bool;
  transform : Transform
}.

(** A [SolverWrapper]: the connection, the pre entry and the synapse type
    whose weights are asked for. *)
Record SolverWrapper := {
  connection : Connection;
  pre_idx : nat;
  synapse_type_of : synapse_type
}.

(** A value of [model.params]. *)
Inductive built :=
| BuiltEns (e : BuiltEnsemble)
| BuiltConn (c : BuiltConnection).

(** [nengo.builder.operator]: the operators [remove_bias_current] looks
    at. *)
Inductive operator :=
| Copy (src dst : nat)
| Reset (dst : nat)
| OtherOperator.

(** A call of the external solver that returned: the connection, what it
    was given and what it returned.  A call that raised leaves no event. *)
Record solve_event := {
  solved : nat;
  given_activities : array2;
  given_targets : array2;
  given_mask : list bool * list bool;
  returned_exc : array2;
  returned_inh : array2
}.

(** The [nengo.builder.Model], the memory of the weight arrays, and the
    calls of the solver that have returned so far. *)
Record Model := {
  params : gmap nat built;
  sig : gmap nat (nat * nat);       (* ens -> (bias signal, input signal) *)
  operators : list operator;
  memory : heap;
  solves : list solve_event
}.

Definition set_params (f : gmap nat built -> gmap nat built) (m : Model) : Model :=
  {| params := f (params m); sig := sig m; operators := operators m;
     memory := memory m; solves := solves m |}.

Definition set_operators (ops : list operator) (m : Model) : Model :=
  {| params := params m; sig := sig m; operators := ops;
     memory := memory m; solves := solves m |}.

Definition set_memory (h : heap) (m : Model) : Model :=
  {| params := params m; sig := sig m; operators := operators m;
     memory := h; solves := solves m |}.

Definition add_solve (e : solve_event) (m : Model) : Model :=
  {| params := params m; sig := sig m; operators := operators m;
     memory := memory m; solves := e :: solves m |}.

(** [model.params[ens]] for an ensemble. *)
Definition built_ensemble (m : Model) (e : Ensemble) : result BuiltEnsemble :=
  match params m !! ens_id e with
  | None => Err KeyError
  | Some (BuiltEns b) => Ok b
  | Some (BuiltConn _) => Err AttributeError
  end.

(** *** [remove_bias_current] (lines 93-103) *)

Fixpoint remove_copy (src dst : nat) (ops : list operator)
    : option (list operator) :=
  match ops with
  | [] => None
  | Copy s d :: ops' =>
      if (s =? src) && (d =? dst) then Some ops'
      else cons (Copy s d) <$> remove_copy src dst ops'
  | op :: ops' => cons op <$> remove_copy src dst ops'
  end.

Definition remove_bias_current (m : Model) (ens : Ensemble)
    : result bool * Model :=
  match sig m !! ens_id ens with
  | None => (Err KeyError, m)
  | Some (sig_post_bias, sig_post_in) =>
      match remove_copy sig_post_bias sig_post_in (operators m) with
      | Some ops => (Ok true, set_operators (ops ++ [Reset sig_post_in]) m)
      | None => (Ok false, m)
      end
  end.

(** *** The state of a build *)

(** A computation on the model that may raise; the model keeps what was
    done to it before the exception. *)
Definition M (A : Type) : Type := Model -> result A * Model.

Definition ret {A} (a : A) : M A := fun m => (Ok a, m).

Definition bind {A B} (c : M A) (k : A -> M B) : M B :=
  fun m =>
    match c m with
    | (Ok a, m') => k a m'
    | (Err e, m') => (Err e, m')
    end.

Definition lift {A} (r : result A) : M A := fun m => (r, m).

Definition raise {A} (e : error) : M A := fun m => (Err e, m).

Definition get_model : M Model := fun m => (Ok m, m).

Definition modify (f : Model -> Model) : M unit := fun m => (Ok tt, f m).

Notation "x <- c ;; k" := (bind c (fun x => k))
  (at level 100, c at next level, right associativity).
Notation "c ;;; k" := (bind c (fun _ => k))
  (at level 100, right associativity).

(** The result of an external function that returned or raised. *)
Definition external {A} (o : option A) : result A :=
  match o with
  | Some a => Ok a
  | None => Err ExternalError
  end.

(** [np.copy(a)] *)
Definition copy (a : ndarray) : M ndarray :=
  m <- get_model ;;
  match read (memory m) a with
  | None => raise InvalidArray
  | Some contents =>
      let (a', h') := alloc (memory m) contents in
      modify (set_memory h') ;;; ret a'
  end.

(** [x = array] for an array that a function just returned. *)
Definition new_array (contents : array2) : M ndarray :=
  m <- get_model ;;
  let (a, h') := alloc (memory m) contents in
  modify (set_memory h') ;;; ret a.

(** *** The build (lines 113-202) *)

(** The local variables of the loop over [conn.pre] (lines 122-154). *)
Record gathered := {
  d1 : nat;
  n1 : nat;
  eval_points_list : list array2;
  activities_list : list array2;
  dim_map : list (nat * nat);
  neurons_map : list (nat * nat);
  types_exc : list (list bool);
  types_inh : list (list bool);
  last_eval_points : option array2   (* the variable [eval_points] *)
}.

Definition nothing_gathered : gathered :=
  {| d1 := 0; n1 := 0; eval_points_list := []; activities_list := [];
     dim_map := []; neurons_map := []; types_exc := []; types_inh := [];
     last_eval_points := None |}.

(** The test of line 157, on the variable [eval_points], which holds the
    evaluation points of the last pre object: [map] runs over its rows,
    and the [shape[0]] of a row is the number of columns. *)
Definition counts_differ (eval_points : array2) : bool :=
  1 <? size (list_to_set (C := gset nat)
               (map (fun _ : list Q => shape1 eval_points) (rows eval_points))).

Section Build.

(** [nengo.builder.ensemble.get_activities],
    [nengo.builder.connection.get_targets] and the wrapped solver: external
    to the repository, [None] when they raise. *)
Variable get_activities : BuiltEnsemble -> Ensemble -> array2 -> option array2.
Variable get_targets : Connection -> array2 -> option array2.
Variable solver :
  array2 -> array2 -> list bool * list bool -> RandomState ->
  option (array2 * array2).

Fixpoint gather (m : Model) (conn : Connection) (pres : list Ensemble)
    (g : gathered) : result gathered :=
  match pres with
  | [] => Ok g
  | pre_ :: rest =>
      let d0 := d1 g in
      let d1' := d1 g + size_out pre_ in
      let n0 := n1 g in
      let n1' := n1 g + neurons_size_out pre_ in
      rbind (match conn_eval_points conn with
             | None => rbind (built_ensemble m pre_) (fun b => Ok (eval_points b))
             | Some ep => Ok (slice_columns ep d0 d1')
             end) (fun eval_points =>
      rbind (built_ensemble m pre_) (fun built_pre_ens =>
      rbind (external (get_activities built_pre_ens pre_ eval_points))
        (fun activities =>
      gather m conn rest
        {| d1 := d1'; n1 := n1';
           eval_points_list := eval_points_list g ++ [eval_points];
           activities_list := activities_list g ++ [activities];
           dim_map := dim_map g ++ [(d0, d1')];
           neurons_map := neurons_map g ++ [(n0, n1')];
           types_exc := types_exc g ++ [synapse_types_exc built_pre_ens];
           types_inh := types_inh g ++ [synapse_types_inh built_pre_ens];
           last_eval_points := Some eval_points |})))
  end.

(** Lines 164-190: the activities, the sign mask and the target currents
    the solver is given. *)
Definition solver_inputs (m : Model) (conn : Connection) (g : gathered)
    : result (array2 * array2 * (list bool * list bool)) :=
  rbind (concatenate1 (eval_points_list g)) (fun eval_points =>
  rbind (concatenate1 (activities_list g)) (fun activities =>
  rbind (concatenate_1d (types_exc g)) (fun exc =>
  rbind (concatenate_1d (types_inh g)) (fun inh =>
  rbind (if length exc =? length inh then Ok (exc, inh) else Err ValueError)
    (fun synapse_types =>
  rbind (external (get_targets conn eval_points)) (fun targets =>
  rbind (match transform conn with
         | Dense t => Ok t
         | NotDense => Err BuildError_non_dense
         end) (fun t =>
  rbind (matmul targets (transpose t)) (fun targets =>
  rbind (built_ensemble m (post_obj conn)) (fun built_post_ens =>
  rbind (matmul targets (transpose (encoders built_post_ens))) (fun tc =>
  rbind (rowwise Qmult false tc (gain built_post_ens)) (fun tc =>
  rbind (if decode_bias conn then rowwise Qplus true tc (bias built_post_ens)
         else Ok tc) (fun target_currents =>
  Ok (activities, target_currents, synapse_types))))))))))))).

(** Lines 121-202: gather, check, solve and store. *)
Definition solve_and_store (conn : Connection) (rng : RandomState)
    : M BuiltConnection :=
  m <- get_model ;;
  g <- lift (gather m conn (pre conn) nothing_gathered) ;;
  eval_points <- lift (match last_eval_points g with
                       | None => Err (UnboundLocalError "eval_points")
                       | Some e => Ok e
                       end) ;;
  if counts_differ eval_points then raise BuildError_eval_point_count
  else
    inputs <- lift (solver_inputs m conn g) ;;
    let '(activities, target_currents, synapse_types) := inputs in
    returned <-
      lift (external (solver activities target_currents synapse_types rng)) ;;
    let '(WE, WI) := returned in
    modify (add_solve {| solved := conn_id conn;
                         given_activities := activities;
                         given_targets := target_currents;
                         given_mask := synapse_types;
                         returned_exc := WE;
                         returned_inh := WI |}) ;;;
    we <- new_array WE ;;
    wi <- new_array WI ;;
    minus_wi <- new_array (neg WI) ;;
    let built_connection :=
      {| weights_exc := Some we;
         weights_inh := Some minus_wi;
         pre_idx_dim_map := dim_map g;
         pre_idx_neurons_map := neurons_map g |} in
    modify (set_params (<[conn_id conn := BuiltConn built_connection]>)) ;;;
    ret built_connection.

(** The branch [if not conn in model.params] (lines 113-202): the empty
    [BuiltConnection] is put into [model.params] before anything else. *)
Definition build (conn : Connection) (rng : RandomState) : M BuiltConnection :=
  modify (set_params (<[conn_id conn := BuiltConn new_built_connection]>)) ;;;
  (if decode_bias conn
   then (fun m => remove_bias_current m (post_obj conn)) ;;; ret tt
   else ret tt) ;;;
  solve_and_store conn rng.

(** [build_solver(model, solver, _, rng)]: the weights [W] it returns. *)
Definition build_solver (wrapper : SolverWrapper) (rng : RandomState)
    : M ndarray :=
  let conn := connection wrapper in
  m <- get_model ;;
  b <- match params m !! conn_id conn with
       | None => bc <- build conn rng ;; ret (BuiltConn bc)
       | Some b => ret b
       end ;;
  _ <- lift (match pre_obj conn !! pre_idx wrapper with
             | None => Err IndexError
             | Some e => Ok (neurons_size_out e)
             end) ;;
  bc <- lift (match b with
              | BuiltConn bc => Ok bc
              | BuiltEns _ => Err AttributeError
              end) ;;
  range <- lift (match pre_idx_neurons_map bc !! pre_idx wrapper with
                 | None => Err IndexError
                 | Some r => Ok r
                 end) ;;
  let '(n0, n1) := range in
  a <- lift (match weights bc (synapse_type_of wrapper) with
             | None => Err TypeError
             | Some a => Ok a
             end) ;;
  copy (Transpose (RowSlice a n0 n1)).


End Build.

(** *** Vocabulary of the statements and examples *)

(** Stand-ins for the external functions in the examples: every neuron's
    activity is the first coordinate of the point, the targets are the
    points themselves, and the solver returns fixed weights, one row per
    pre neuron. *)
Definition example_activities (b : BuiltEnsemble) (e : Ensemble) (ep : array2)
    : option array2 :=
  Some {| shape1 := neurons_size_out e;
          rows := map (fun r => repeat (nth 0 r 0%Q) (neurons_size_out e))
                    (rows ep) |}.

Definition example_targets (c : Connection) (ep : array2) : option array2 :=
  Some ep.

Definition example_solver (activities targets : array2)
    (mask : list bool * list bool) (rng : RandomState)
    : option (array2 * array2) :=
  Some ({| shape1 := 1; rows := [[1]; [2]; [3]]%Q |},
        {| shape1 := 1; rows := [[4]; [5]; [6]]%Q |}).

Definition ens_a : Ensemble := {| ens_id := 1; size_out := 1; neurons_size_out := 2 |}.

Definition ens_b : Ensemble := {| ens_id := 2; size_out := 1; neurons_size_out := 1 |}.

Definition ens_c : Ensemble := {| ens_id := 3; size_out := 2; neurons_size_out := 1 |}.

Definition built_pre_ens (points : list (list Q)) (n : nat) : BuiltEnsemble :=
  {| eval_points := {| shape1 := 1; rows := points |};
     synapse_types_exc := repeat true n;
     synapse_types_inh := repeat false n;
     encoders := {| shape1 := 1; rows := repeat [1%Q] n |};
     gain := repeat 1%Q n;
     bias := repeat 0%Q n |}.

Definition built_pre (points : list (list Q)) (n : nat) : built :=
  BuiltEns (built_pre_ens points n).

Definition built_post : built :=
  BuiltEns {| eval_points := {| shape1 := 2; rows := [[0; 0]]%Q |};
              synapse_types_exc := [true];
              synapse_types_inh := [true];
              encoders := {| shape1 := 2; rows := [[1; 0]]%Q |};
              gain := [2%Q];
              bias := [0%Q] |}.

(** A model in which [ens_a] has two evaluation points and [ens_b] has
    [points_b]. *)
Definition example_model (points_b : list (list Q)) : Model :=
  {| params := <[1 := built_pre [[1]; [2]]%Q 2]>
               (<[2 := built_pre points_b 1]> (<[3 := built_post]> ∅));
     sig := ∅;
     operators := [];
     memory := [];
     solves := [] |}.

(** The connection [(ens_a, ens_b) -> ens_c] with the identity transform. *)
Definition example_conn : Connection :=
  {| conn_id := 7;
     pre := [ens_a; ens_b];
     pre_obj := [ens_a; ens_b];
     post_obj := ens_c;
     conn_eval_points := None;
     decode_bias := false;
     transform := Dense {| shape1 := 2; rows := [[1; 0]; [0; 1]]%Q |} |}.

Definition request (i : nat) (t : synapse_type) : SolverWrapper :=
  {| connection := example_conn; pre_idx := i; synapse_type_of := t |}.

Definition example_build_solver :=
  build_solver example_activities example_targets example_solver.


Definition no_rng : RandomState := {| stream := fun _ => 0; position := 0 |}.

(** Lines 206-213 for the value [b] of [model.params[conn]]: the model
    changes by one new array at most. *)
Definition finish (w : SolverWrapper) (b : built) (m : Model)
    : result ndarray * Model :=
  match pre_obj (connection w) !! pre_idx w with
  | None => (Err IndexError, m)
  | Some _ =>
      match b with
      | BuiltEns _ => (Err AttributeError, m)
      | BuiltConn bc =>
          match pre_idx_neurons_map bc !! pre_idx w with
          | None => (Err IndexError, m)
          | Some (n0, n1) =>
              match weights bc (synapse_type_of w) with
              | None => (Err TypeError, m)
              | Some a =>
                  match read (memory m) (Transpose (RowSlice a n0 n1)) with
                  | None => (Err InvalidArray, m)
                  | Some c =>
                      (Ok (Owner (length (memory m))),
                       set_memory (memory m ++ [c]) m)
                  end
              end
          end
      end
  end.

(** The event of the solver call in a build of [conn]. *)
Definition solve_of (conn : Connection) (act tc : array2)
    (mask : list bool * list bool) (WE WI : array2) : solve_event :=
  {| solved := conn_id conn; given_activities := act; given_targets := tc;
     given_mask := mask; returned_exc := WE; returned_inh := WI |}.

(** Every entry of a matrix. *)
Definition all_entries (P : Q -> Prop) (m : array2) : Prop :=
  Forall (Forall P) (rows m).

Definition matching_model : Model := example_model [[5]; [6]]%Q.

(** The model after the first request, for the inhibitory weights of
    [ens_a]. *)
Definition built_model : Model :=
  snd (example_build_solver (request 0 Inhibitory) no_rng matching_model).

Definition example_built : BuiltConnection :=
  {| weights_exc := Some (Owner 0);
     weights_inh := Some (Owner 2);
     pre_idx_dim_map := [(0, 1); (1, 2)];
     pre_idx_neurons_map := [(0, 2); (2, 3)] |}.

(** Consecutive ranges of the given widths, from [start]. *)
Fixpoint ranges (start : nat) (ws : list nat) : list (nat * nat) :=
  match ws with
  | [] => []
  | w :: ws' => (start, start + w) :: ranges (start + w) ws'
  end.

(** A model whose operators copy the bias of [ens_c] (signal 10) into its
    input (signal 11) twice. *)
Definition biased_model : Model :=
  {| params := ∅;
     sig := <[3 := (10, 11)]> ∅;
     operators := [OtherOperator; Copy 10 11; Copy 11 10; Copy 10 11];
     memory := [];
     solves := [] |}.

(** The model in which the two pre ensembles have two and three
    evaluation points. *)
Definition mismatched_model : Model := example_model [[1]; [2]; [3]]%Q.

(** [example_conn] without pre ensembles, and with a transform that is
    not [Dense]. *)
Definition conn_without_pre : Connection :=
  {| conn_id := 7; pre := []; pre_obj := []; post_obj := ens_c;
     conn_eval_points := None; decode_bias := false;
     transform := Dense {| shape1 := 2; rows := [[1; 0]; [0; 1]]%Q |} |}.

Definition conn_not_dense : Connection :=
  {| conn_id := 7; pre := [ens_a; ens_b]; pre_obj := [ens_a; ens_b];
     post_obj := ens_c; conn_eval_points := None; decode_bias := false;
     transform := NotDense |}.

End Builder.

(** * Theorems *)

(** ** The reference simulator *)

Module ReferenceFacts.
Import Reference.
Local Open Scope Q_scope.

Lemma Qltb_lt (a b : Q) : Qltb a b = true <-> a < b.
Proof.
  unfold Qltb. rewrite Qlt_alt. destruct (a ?= b); intuition discriminate.
Qed.

Lemma Qltb_nlt (a b : Q) : Qltb a b = false <-> ~ a < b.
Proof.
  rewrite <- Qltb_lt. destruct (Qltb a b); intuition discriminate.
Qed.

Lemma Qleb_le (a b : Q) : Qleb a b = true <-> a <= b.
Proof. apply Qle_bool_iff. Qed.

Lemma crosses_spec nrn s :
  crosses nrn s = true <-> v_th nrn < v_som s /\ tref s <= 0.
Proof.
  unfold crosses. rewrite andb_true_iff, Qltb_lt, Qleb_le. tauto.
Qed.

(** The dendritic voltage of a substep is the Euler update, whatever the
    refractory timer says. *)
Lemma substep_v_den nrn dt ss gE gI st :
  v_den (fst (substep nrn dt ss gE gI st)) =
  v_den (fst st) + substep_width dt ss * d_v_den nrn gE gI (fst st) / C_den nrn.
Proof.
  unfold substep, spike, end_of_substep, refractory, euler. simpl.
  repeat (match goal with |- context [if ?b then _ else _] => destruct b end;
          simpl); reflexivity.
Qed.

Lemma substep_out nrn dt ss gE gI st :
  snd (substep nrn dt ss gE gI st) =
  if crosses nrn (end_of_substep nrn dt ss gE gI (fst st)) then 1 / dt
  else snd st.
Proof.
  unfold substep, spike. simpl.
  destruct (crosses nrn (end_of_substep nrn dt ss gE gI (fst st))); reflexivity.
Qed.

(** The buffer after [k] substeps: overwritten with [1 / dt] as soon as one
    substep crossed, untouched otherwise. *)
Lemma substeps_out nrn dt ss out gE gI s k :
  snd (substeps k nrn dt ss gE gI (s, out)) =
  if existsb (crosses_at nrn dt ss out gE gI s) (seq 0 k) then 1 / dt else out.
Proof.
  induction k as [|k IH].
  - reflexivity.
  - rewrite seq_S, existsb_app. simpl substeps. rewrite substep_out, IH.
    cbn [existsb Nat.add]. rewrite orb_false_r.
    change (crosses nrn (end_of_substep nrn dt ss gE gI
              (fst (substeps k nrn dt ss gE gI (s, out)))))
      with (crosses_at nrn dt ss out gE gI s k).
    destruct (crosses_at nrn dt ss out gE gI s k).
    + now rewrite orb_true_r.
    + now rewrite orb_false_r.
Qed.

(** C4. In every substep of the reference integrator (run with parameters
    for which it divides by no zero): the dendritic voltage
    takes its forward-Euler update whether or not the neuron is refractory;
    when the somatic voltage at the end of the substep exceeds [v_th] and the
    timer is not positive, the output becomes [1 / dt], the timer becomes
    [tau_ref + tau_spike] and the somatic voltage becomes [v_spike] if
    [tau_spike > 0] and [v_reset] otherwise; a substep that starts with a
    positive timer decrements it by the substep width and ends with the
    somatic voltage clamped to [v_spike] or [v_reset].  Over a whole call the
    output is [1 / dt] if some substep crossed (however many did) and is left
    as it was if none did. *)
Theorem reference_step_spikes nrn dt ss out gE gI s :
  divides_safely nrn dt ->
  let e := end_of_substep nrn dt ss gE gI s in
  let r := substep nrn dt ss gE gI (s, out) in
  v_den (fst r) =
    v_den s + substep_width dt ss * d_v_den nrn gE gI s / C_den nrn
  /\ (v_th nrn < v_som e -> tref e <= 0 ->
      snd r = 1 / dt
      /\ tref (fst r) = tau_ref nrn + tau_spike nrn
      /\ (0 < tau_spike nrn -> v_som (fst r) = v_spike nrn)
      /\ (~ 0 < tau_spike nrn -> v_som (fst r) = v_reset nrn))
  /\ (~ (v_th nrn < v_som e /\ tref e <= 0) -> r = (e, out))
  /\ (0 < tref s ->
      tref e = tref s - substep_width dt ss
      /\ (tau_ref nrn < tref e -> v_som e = v_spike nrn)
      /\ (~ tau_ref nrn < tref e -> v_som e = v_reset nrn)
      /\ (v_som (fst r) = v_spike nrn \/ v_som (fst r) = v_reset nrn))
  /\ snd (call nrn dt ss out gE gI s) =
     (if existsb (crosses_at nrn dt ss out gE gI s) (seq 0 ss) then 1 / dt
      else out).
Proof.
  intros _ e r. split; [apply (substep_v_den nrn dt ss gE gI (s, out))|].
  split; [|split; [|split]].
  - intros Hth Href.
    assert (Hc : crosses nrn e = true) by (apply crosses_spec; tauto).
    subst r. unfold substep, spike. simpl fst. simpl snd. fold e. rewrite Hc.
    simpl. repeat split.
    + intros Hs. apply Qltb_lt in Hs. now rewrite Hs.
    + intros Hs. apply Qltb_nlt in Hs. now rewrite Hs.
  - intros Hn.
    assert (Hc : crosses nrn e = false).
    { destruct (crosses nrn e) eqn:E; [|reflexivity].
      apply crosses_spec in E. tauto. }
    subst r. unfold substep, spike. simpl fst. simpl snd. fold e.
    now rewrite Hc.
  - intros Hpos. apply Qltb_lt in Hpos.
    assert (He : e = {| v_som := if Qltb (tau_ref nrn) (tref s - substep_width dt ss)
                                 then v_spike nrn else v_reset nrn;
                        v_den := v_den (euler nrn dt ss gE gI s);
                        tref := tref s - substep_width dt ss |}).
    { subst e. unfold end_of_substep, refractory. simpl. now rewrite Hpos. }
    split; [now rewrite He|].
    split; [|split].
    + intros H. rewrite He in H |- *. simpl in *. apply Qltb_lt in H.
      now rewrite H.
    + intros H. rewrite He in H |- *. simpl in *. apply Qltb_nlt in H.
      now rewrite H.
    + subst r. unfold substep, spike. simpl fst. simpl snd. fold e.
      destruct (crosses nrn e); simpl.
      * destruct (Qltb 0 (tau_spike nrn)); auto.
      * rewrite He. simpl. destruct (Qltb (tau_ref nrn) _); auto.
  - apply substeps_out.
Qed.

Lemma reference_step_spikes_witness :
  snd (call default_neuron (1 # 1000) 2 0 0 0 above_threshold) = 1 / (1 # 1000)
  /\ tref (fst (substep default_neuron (1 # 1000) 2 0 0 (above_threshold, 0)))
     = tau_ref default_neuron + tau_spike default_neuron.
Proof.
  destruct (reference_step_spikes default_neuron (1 # 1000) 2 0 0 0
              above_threshold) as (_ & Hspike & _ & _ & Hcall).
  - repeat split.
  - split.
    + rewrite Hcall. vm_compute. reflexivity.
    + apply Hspike; vm_compute; [reflexivity|discriminate].
Defined.

End ReferenceFacts.

(** ** Gain and bias of the LIF neuron *)

Module LIFFacts.
Import Reference.
Import LIF.
Local Open Scope Q_scope.

Lemma broadcast2_same_length {A B C} (f : A -> B -> C) xs ys :
  length xs = length ys -> broadcast2 f xs ys = Ok (zip_with f xs ys).
Proof.
  intros H. unfold broadcast2. rewrite H, Nat.eqb_refl. reflexivity.
Qed.

(** [max_rates_intercepts] never hands back a non-finite intercept. *)
Lemma max_rates_intercepts_ok_finite rate nrn gain bias max_rates intercepts :
  max_rates_intercepts rate nrn gain bias = Ok (max_rates, intercepts) ->
  forallb isfinite intercepts = true.
Proof.
  unfold max_rates_intercepts.
  destruct (broadcast2 fadd gain bias) as [J|]; [|discriminate].
  cbn [rbind]. destruct (_lif_rate rate nrn J) as [mr|]; [|discriminate].
  cbn [rbind]. destruct (broadcast2 fdiv _ gain) as [ic|]; [|discriminate].
  cbn [rbind]. destruct (forallb isfinite ic) eqn:E; [|discriminate].
  cbn [negb]. intros H. inversion H; subst. exact E.
Qed.

(** C9 (the code at a failing input).  A gain of zero makes the intercept
    infinite; the call then stops with [NameError] at [warnings.warn],
    because [neurons.py] never imports [warnings]: no warning is issued and
    no value is returned. *)
Theorem max_rates_intercepts_zero_gain :
  max_rates_intercepts rate_example default_neuron [Fin 0] [Fin 0] =
  Err (NameError "warnings").
Proof.
  unfold max_rates_intercepts. vm_compute. reflexivity.
Qed.

End LIFFacts.

(** ** Gain and bias in binary64 *)

Module LIF64Facts.
Import Floats.
Import LIF64.
Local Open Scope float_scope.
#[local] Set Warnings "-inexact-float".

Lemma SFcompare_Lt_asym a b :
  SFcompare a b = Some Lt -> SFcompare b a <> Some Lt.
Proof.
  destruct a as [s|s| |s m e], b as [s'|s'| |s' m' e']; cbn;
    try discriminate; try (destruct s; discriminate);
    try (destruct s'; discriminate);
    try (destruct s, s'; discriminate).
  destruct s, s'; try discriminate.
  - rewrite (Z.compare_antisym e e').
    destruct (e ?= e')%Z eqn:E; cbn; try discriminate.
    change (PosDef.Pos.compare_cont Eq m' m) with (Pos.compare m' m).
    change (PosDef.Pos.compare_cont Eq m m') with (Pos.compare m m').
    rewrite (Pos.compare_antisym m m').
    destruct (m ?= m')%positive; cbn; discriminate.
  - rewrite (Z.compare_antisym e e').
    destruct (e ?= e')%Z eqn:E; cbn; try discriminate.
    change (PosDef.Pos.compare_cont Eq m' m) with (Pos.compare m' m).
    change (PosDef.Pos.compare_cont Eq m m') with (Pos.compare m m').
    rewrite (Pos.compare_antisym m m').
    destruct (m ?= m')%positive; cbn; discriminate.
Qed.

(** A binary64 number below another is not above it. *)
Lemma ltb_asym (x y : float) : (x <? y) = true -> (y <? x) = false.
Proof.
  rewrite !ltb_spec. unfold SFltb. intros H.
  destruct (SFcompare (Prim2SF x) (Prim2SF y)) as [[| |]|] eqn:E;
    try discriminate.
  apply SFcompare_Lt_asym in E.
  destruct (SFcompare (Prim2SF y) (Prim2SF x)) as [[| |]|]; congruence.
Qed.

Lemma lif_parameters_binary64 nrn :
  (g_leak_som nrn =? 0) = false ->
  _lif_parameters nrn =
  Ok (tau_spike nrn + tau_ref nrn, C_som nrn / g_leak_som nrn,
      threshold_current nrn).
Proof. intros Hg. unfold _lif_parameters. now rewrite Hg. Qed.

(** C7 (as amended).  On a neuron whose leak conductance is not zero:
    a requested maximum rate above [1 / (tau_ref + tau_spike)] makes
    [gain_bias] raise a validation error; for rates that are each below
    the inverse of [tau_ref + tau_spike] and intercepts of the same length,
    [gain_bias] returns one gain and one bias per neuron, where
    [gain = (i_max - i_th) / (1 - intercept)] and [bias = i_max - gain],
    every operation rounded to binary64, with
    [i_th = (v_th - E_rev_leak) * g_leak_som] and [i_max] the inverse rate
    function at the requested rate, times [i_th].  In exact arithmetic
    these two formulas are the solution of
    [i_th = gain * intercept + bias] and [i_max = gain + bias] for an
    intercept other than one. *)
Theorem gain_bias_is_rounded_solution inv nrn (max_rates intercepts : list float) :
  (g_leak_som nrn =? 0) = false ->
  let tau := tau_spike nrn + tau_ref nrn in
  let rc := C_som nrn / g_leak_som nrn in
  let i_th := threshold_current nrn in
  ((0 <? tau) = true /\ Exists (fun r => (1 / tau <? r) = true) max_rates ->
   gain_bias inv nrn max_rates intercepts = Err ValidationError_max_rates)
  /\
  (Forall (fun r => (r <? inv_tau_ref tau) = true) max_rates ->
   length max_rates = length intercepts ->
   exists gain bias : list float,
     gain_bias inv nrn max_rates intercepts = Ok (gain, bias)
     /\ length gain = length max_rates
     /\ length bias = length max_rates
     /\ forall k r c g b,
          max_rates !! k = Some r -> intercepts !! k = Some c ->
          gain !! k = Some g -> bias !! k = Some b ->
          g = (inv r tau rc * i_th - i_th) / (1 - c) /\
          b = inv r tau rc * i_th - g)
  /\
  (forall x t c : Q, ~ (c == 1)%Q ->
     let g := ((x - t) / (1 - c))%Q in
     let b := (x - g)%Q in
     (t == g * c + b)%Q /\ (x == g + b)%Q).
Proof.
  intros Hg tau rc i_th. split; [|split].
  - intros [Htau Hex]. unfold gain_bias.
    rewrite (lif_parameters_binary64 nrn Hg). cbn [rbind]. fold tau.
    unfold inv_tau_ref. rewrite Htau.
    assert (Hany : existsb (fun r => 1 / tau <? r) max_rates = true).
    { apply existsb_exists. apply Exists_exists in Hex as (r & Hin & Hr).
      exists r. split; [now apply list_elem_of_In|exact Hr]. }
    now rewrite Hany.
  - intros Hbelow Hlen. unfold gain_bias, _lif_rate_inv.
    rewrite (lif_parameters_binary64 nrn Hg). cbn [rbind]. fold tau rc i_th.
    assert (Hnone : existsb (fun r => inv_tau_ref tau <? r) max_rates = false).
    { apply not_true_is_false. intros H.
      apply existsb_exists in H as (r & Hin & Hr).
      rewrite Forall_forall in Hbelow.
      apply list_elem_of_In in Hin. apply Hbelow, ltb_asym in Hin.
      congruence. }
    rewrite Hnone.
    rewrite LIFFacts.broadcast2_same_length
      by (rewrite !length_map; exact Hlen).
    cbn [rbind].
    rewrite LIFFacts.broadcast2_same_length
      by (rewrite length_zip_with, !length_map; lia).
    cbn [rbind]. eexists _, _. split; [reflexivity|].
    split; [|split].
    + rewrite length_zip_with, !length_map. lia.
    + rewrite !length_zip_with, !length_map. lia.
    + intros k r c g b Hr Hc Hgk Hbk.
      apply lookup_zip_with_Some in Hbk as (x & g' & -> & Hx & Hg').
      rewrite Hgk in Hg'. inversion Hg'; subst g'.
      rewrite list_lookup_fmap, Hr in Hx. inversion Hx; subst x.
      apply lookup_zip_with_Some in Hgk as (x & d & -> & Hx' & Hd).
      rewrite !list_lookup_fmap, Hr in Hx'. inversion Hx'; subst x.
      rewrite list_lookup_fmap, Hc in Hd. inversion Hd; subst d.
      split; reflexivity.
  - intros x t c Hc. cbv zeta. split; field; lra.
Qed.

Lemma gain_bias_is_rounded_solution_witness :
  exists gain bias : list float,
    gain_bias rate_inv_at_200 default_lif [200] [0.5] = Ok (gain, bias)
    /\ length gain = 1%nat /\ length bias = 1%nat.
Proof.
  destruct (gain_bias_is_rounded_solution rate_inv_at_200 default_lif
              [200] [0.5]) as (_ & H & _).
  - reflexivity.
  - destruct H as (gain & bias & Hv & Hlg & Hlb & _).
    + repeat constructor.
    + reflexivity.
    + exists gain, bias. split; [exact Hv|]. split; [exact Hlg|exact Hlb].
Defined.

(** The equations themselves do not survive the rounding.  For the default
    neuron, a rate of 200 and an intercept of one half, the returned gain
    and bias give [gain * 0.5 + bias = 7.500000000000001e-10], while
    [i_th = 7.4999999999999989e-10].  With an intercept of one the divisor
    [1. - intercepts] is zero: the gain is infinite, the bias is the
    opposite infinity, and [gain * 1 + bias] is not a number.  Arrays of
    two rates and three intercepts cannot be combined, and a leak
    conductance of zero stops [_lif_parameters]: nothing is returned. *)
Lemma gain_bias_equations_fail :
  (exists g b,
     gain_bias rate_inv_at_200 default_lif [200] [0.5] = Ok ([g], [b]) /\
     (g * 0.5 + b =? threshold_current default_lif) = false)
  /\ gain_bias rate_inv_at_200 default_lif [200] [1] =
     Ok ([infinity], [neg_infinity])
  /\ (infinity * 1 + neg_infinity =? threshold_current default_lif) = false
  /\ gain_bias rate_inv_at_200 default_lif [200; 200] [0; 0; 0] =
     Err ValueError
  /\ gain_bias rate_inv_at_200
       {| C_som := 1e-9; g_leak_som := 0; E_rev_leak := -65e-3;
          tau_ref := 2e-3; tau_spike := 1e-3; v_th := -50e-3;
          v_reset := -65e-3; v_spike := 20e-3; subsample := 10 |}
       [200] [0.5] = Err ZeroDivisionError.
Proof.
  split; [|split; [|split; [|split]]].
  - eexists _, _. split; vm_compute; reflexivity.
  - vm_compute. reflexivity.
  - vm_compute. reflexivity.
  - vm_compute. reflexivity.
  - vm_compute. reflexivity.
Qed.

End LIF64Facts.

(** ** Evaluation points of stacks and joins *)

Module EvalPointsFacts.
Import EvalPoints.
Local Open Scope nat_scope.

(** Induction over a MultiEnsemble and the objects below it. *)
Lemma MultiEnsemble_tree_ind (P : MultiEnsemble -> Prop) :
  (forall ens d, P (OP_NONE ens d)) ->
  (forall objs d, Forall P objs -> P (OP_STACK objs d)) ->
  (forall objs d, Forall P objs -> P (OP_JOIN objs d)) ->
  forall mens, P mens.
Proof.
  intros Hn Hs Hj.
  fix IH 1. intros [ens d|objs d|objs d].
  - apply Hn.
  - apply Hs. induction objs as [|o objs IHo]; constructor; [apply IH|exact IHo].
  - apply Hj. induction objs as [|o objs IHo]; constructor; [apply IH|exact IHo].
Qed.

Lemma well_formed_stack params objs d :
  well_formed params (OP_STACK objs d) <->
  objs <> [] /\ d = list_sum (map dimensions objs) /\
  Forall (well_formed params) objs.
Proof.
  cbn [well_formed].
  assert (H : forall l,
    (fix all (l : list MultiEnsemble) : Prop :=
       match l with
       | [] => True
       | o :: l' => well_formed params o /\ all l'
       end) l <-> Forall (well_formed params) l).
  { induction l as [|o l IH]; [split; constructor|].
    rewrite Forall_cons, IH. reflexivity. }
  rewrite H. reflexivity.
Qed.

Lemma well_formed_join params objs d :
  well_formed params (OP_JOIN objs d) <->
  objs <> [] /\
  Forall (fun o => dimensions o = d /\ well_formed params o) objs.
Proof.
  cbn [well_formed].
  assert (H : forall l,
    (fix all (l : list MultiEnsemble) : Prop :=
       match l with
       | [] => True
       | o :: l' => (dimensions o = d /\ well_formed params o) /\ all l'
       end) l <-> Forall (fun o => dimensions o = d /\ well_formed params o) l).
  { induction l as [|o l IH]; [split; constructor|].
    rewrite Forall_cons, IH. reflexivity. }
  rewrite H. reflexivity.
Qed.

(** *** Drawing rows *)

Lemma randint_ok rng low high n :
  n = 0 \/ low < high ->
  exists idx rng',
    randint rng low high n = Ok (idx, rng') /\ length idx = n /\
    Forall (fun i => low <= i < high) idx.
Proof.
  intros H. unfold randint. destruct (n =? 0) eqn:En.
  - apply Nat.eqb_eq in En. subst n. exists [], rng. repeat split. constructor.
  - apply Nat.eqb_neq in En. destruct H as [H|H]; [contradiction|].
    destruct (high <=? low) eqn:E; [apply Nat.leb_le in E; lia|].
    eexists _, _. split; [reflexivity|]. split.
    + now rewrite length_map, length_seq.
    + apply Forall_forall. intros i Hi.
      apply list_elem_of_fmap in Hi as (k & -> & _).
      pose proof (Nat.mod_upper_bound (stream rng (position rng + k))
                    (high - low)). lia.
Qed.

Lemma take_rows_ok (rs : list (list Q)) idx :
  Forall (fun i => 0 <= i < length rs) idx ->
  exists out,
    take_rows rs idx = Ok out /\ length out = length idx /\
    Forall (fun r => r ∈ rs) out.
Proof.
  induction 1 as [|i idx Hi _ (out & Ho & Hl & Hin)].
  - exists []. repeat split. constructor.
  - cbn [take_rows]. destruct (rs !! i) as [r|] eqn:E.
    + rewrite Ho. cbn [rbind]. exists (r :: out). repeat split.
      * cbn. now rewrite Hl.
      * constructor; [|exact Hin]. apply list_elem_of_lookup. eauto.
    + apply lookup_ge_None in E. lia.
Qed.

(** [choice(A, n)] returns [n] rows of [A], provided [A] has a row to draw
    from or none is asked for. *)
Lemma choice_ok a n rng :
  well_shaped a -> n = 0 \/ 1 <= shape0 a ->
  exists c rng',
    choice a n rng = Ok (c, rng') /\ shape1 c = shape1 a /\ shape0 c = n /\
    Forall (fun r => r ∈ rows a) (rows c) /\ well_shaped c.
Proof.
  intros Hw Hn. unfold choice.
  destruct (randint_ok rng 0 (shape0 a) n) as (idx & rng' & -> & Hl & Hidx).
  { destruct Hn; [left|right]; lia. }
  cbn [rbind].
  destruct (take_rows_ok (rows a) idx Hidx) as (out & -> & Hlo & Hin).
  cbn [rbind]. eexists _, _. split; [reflexivity|]. cbn.
  repeat split; try assumption.
  - unfold shape0. cbn. lia.
  - unfold well_shaped in *. cbn. rewrite Forall_forall in *.
    intros r Hr. apply Hw. now apply Hin.
Qed.

(** *** Writing a column block *)

Lemma assign_block_exact dst r0 r1 c0 w src :
  r0 <= r1 -> r1 <= shape0 dst -> c0 + w <= shape1 dst ->
  shape0 src = r1 - r0 -> shape1 src = w ->
  assign_block dst r0 r1 c0 (c0 + w) src =
  Ok {| shape1 := shape1 dst;
        rows := take r0 (rows dst) ++
                paste c0 w (take (r1 - r0) (drop r0 (rows dst))) (rows src) ++
                drop r1 (rows dst) |}.
Proof.
  intros Hr01 Hr1 Hc Hs0 Hs1. unfold assign_block. cbv zeta.
  replace (Nat.min r0 (shape0 dst)) with r0 by lia.
  replace (Nat.min r1 (shape0 dst)) with r1 by lia.
  replace (Nat.max r0 r1) with r1 by lia.
  replace (Nat.min c0 (shape1 dst)) with c0 by lia.
  replace (Nat.min (c0 + w) (shape1 dst)) with (c0 + w) by lia.
  replace (Nat.max c0 (c0 + w)) with (c0 + w) by lia.
  replace (c0 + w - c0) with w by lia.
  rewrite Hs1, Nat.eqb_refl. cbn [orb negb].
  unfold broadcast_axis. unfold shape0 in Hs0. rewrite Hs0, Nat.eqb_refl.
  reflexivity.
Qed.

(** The two slice assignments of lines 76-78 together write one block of
    [shape0 pnts] rows: the object's points followed by the extra draws. *)
Lemma stack_step_rows pnts p extra d :
  shape0 p <= shape0 pnts -> d + shape1 p <= shape1 pnts ->
  shape0 extra = shape0 pnts - shape0 p -> shape1 extra = shape1 p ->
  exists pnts1,
    assign_block pnts 0 (shape0 p) d (d + shape1 p) p = Ok pnts1 /\
    assign_block pnts1 (shape0 p) (shape0 pnts1) d (d + shape1 p) extra =
    Ok {| shape1 := shape1 pnts;
          rows := paste d (shape1 p) (rows pnts) (rows p ++ rows extra) |}.
Proof.
  intros Hn Hd He0 He1.
  eexists. split.
  { apply assign_block_exact; try lia. }
  set (rows1 := take 0 (rows pnts) ++
                paste d (shape1 p) (take (shape0 p - 0) (drop 0 (rows pnts)))
                  (rows p) ++ drop (shape0 p) (rows pnts)).
  assert (Hrows1 : rows1 = paste d (shape1 p) (take (shape0 p) (rows pnts))
                             (rows p) ++ drop (shape0 p) (rows pnts)).
  { subst rows1. now rewrite Nat.sub_0_r, take_0, drop_0. }
  assert (Hlen_paste :
    length (paste d (shape1 p) (take (shape0 p) (rows pnts)) (rows p)) =
    shape0 p).
  { unfold paste, shape0 in *. rewrite length_zip_with, length_take. lia. }
  assert (Hlen1 : length rows1 = shape0 pnts).
  { rewrite Hrows1, length_app, Hlen_paste, length_drop. unfold shape0 in *.
    lia. }
  assert (Hs1 : shape0 {| shape1 := shape1 pnts; rows := rows1 |} =
                shape0 pnts) by exact Hlen1.
  rewrite Hs1.
  rewrite assign_block_exact; rewrite ?Hs1; cbn [shape1 rows]; try lia.
  f_equal. f_equal.
  rewrite (drop_ge rows1 (shape0 pnts)) by lia. rewrite app_nil_r.
  rewrite Hrows1.
  rewrite take_app_le by lia. rewrite take_ge by lia.
  rewrite drop_app_ge by lia. rewrite Hlen_paste, Nat.sub_diag, drop_0.
  rewrite (take_ge (drop (shape0 p) (rows pnts)))
    by (rewrite length_drop; unfold shape0 in *; lia).
  unfold paste.
  rewrite <- (take_drop (shape0 p) (rows pnts)) at 3.
  rewrite zip_with_app; [reflexivity|].
  rewrite length_take. unfold shape0 in *. lia.
Qed.

Lemma paste_shape D d w (rs blk : list (list Q)) :
  Forall (fun r => length r = D) rs -> fits (length rs) (w, blk) ->
  d + w <= D ->
  Forall (fun r => length r = D) (paste d w rs blk) /\
  length (paste d w rs blk) = length rs /\
  map (take d) (paste d w rs blk) = map (take d) rs /\
  map (fun r => take w (drop d r)) (paste d w rs blk) = blk.
Proof.
  intros Hrs [Hlen Hblk] Hd. cbn [fst snd] in *. revert blk Hlen Hblk.
  induction Hrs as [|row rs Hrow _ IH]; intros [|s blk] Hlen Hblk;
    try discriminate; [repeat split; constructor|].
  apply Forall_cons in Hblk as [Hs Hblk].
  destruct (IH blk) as (H1 & H2 & H3 & H4); [cbn in Hlen; lia|assumption|].
  unfold paste in *. cbn [zip_with map length].
  assert (Ht : length (take d row) = d) by (rewrite length_take; lia).
  repeat split.
  - constructor; [|exact H1]. unfold splice.
    rewrite !length_app, length_take, length_drop. lia.
  - now rewrite H2.
  - rewrite H3. f_equal. unfold splice. now apply take_app_length'.
  - rewrite H4. f_equal. unfold splice.
    rewrite drop_app_length' by now symmetry.
    now apply take_app_length'.
Qed.

Lemma take_of_take (d w : nat) (rs : list (list Q)) :
  map (take d) rs = map (take d) (map (take (d + w)) rs).
Proof.
  rewrite map_map. apply map_ext. intros r. rewrite take_take.
  f_equal. lia.
Qed.

Lemma paste_all_shape D R (bs : list (nat * list (list Q))) :
  Forall (fits R) bs ->
  forall d (rs : list (list Q)),
  Forall (fun r => length r = D) rs -> length rs = R ->
  d + list_sum (map fst bs) <= D ->
  Forall (fun r => length r = D) (paste_all d rs bs) /\
  length (paste_all d rs bs) = R /\
  map (take d) (paste_all d rs bs) = map (take d) rs.
Proof.
  induction 1 as [|[w blk] bs Hb _ IH]; intros d rs Hrs HR Hd;
    [now repeat split|].
  cbn [paste_all]. change (d + (w + list_sum (map fst bs)) <= D) in Hd.
  destruct (paste_shape D d w rs blk Hrs) as (H1 & H2 & H3 & _);
    [now rewrite HR|lia|].
  destruct (IH (d + w) (paste d w rs blk)) as (I1 & I2 & I3);
    [assumption|lia|lia|].
  repeat split; [assumption..|].
  rewrite (take_of_take d w), I3, <- (take_of_take d w). exact H3.
Qed.

(** The [i]-th block is found at the offset given by the widths before
    it. *)
Lemma paste_all_block D R (bs : list (nat * list (list Q))) :
  Forall (fits R) bs ->
  forall d (rs : list (list Q)) i w blk,
  Forall (fun r => length r = D) rs -> length rs = R ->
  d + list_sum (map fst bs) <= D ->
  bs !! i = Some (w, blk) ->
  map (fun r => take w (drop (d + list_sum (map fst (take i bs))) r))
    (paste_all d rs bs) = blk.
Proof.
  induction 1 as [|[w0 blk0] bs Hb Hbs IH]; intros d rs i w blk Hrs HR Hd Hi;
    [discriminate|].
  cbn [paste_all]. change (d + (w0 + list_sum (map fst bs)) <= D) in Hd.
  destruct (paste_shape D d w0 rs blk0 Hrs) as (H1 & H2 & H3 & H4);
    [now rewrite HR|lia|].
  destruct i as [|i].
  - inversion Hi; subst w0 blk0.
    change (list_sum (map fst (take 0 ((w, blk) :: bs)))) with 0.
    rewrite Nat.add_0_r.
    destruct (paste_all_shape D R bs Hbs (d + w) (paste d w rs blk))
      as (_ & _ & I3); [assumption|lia|lia|].
    rewrite <- H4 at 2.
    transitivity (map (drop d) (map (take (d + w)) (paste_all (d + w)
                    (paste d w rs blk) bs))).
    + rewrite map_map. apply map_ext. intros r. apply take_drop_commute.
    + rewrite I3, map_map. apply map_ext. intros r.
      symmetry. apply take_drop_commute.
  - change (list_sum (map fst (take (S i) ((w0, blk0) :: bs))))
      with (w0 + list_sum (map fst (take i bs))).
    cbn in Hi. rewrite Nat.add_assoc.
    apply (IH (d + w0) (paste d w0 rs blk0) i w blk); try assumption; lia.
Qed.

(** *** The loop of a stack *)

Lemma stack_loop_ok R ps :
  Forall (fillable R) ps ->
  forall d pnts rng,
  shape0 pnts = R -> d + list_sum (map shape1 ps) <= shape1 pnts ->
  exists pnts' rng' extras,
    stack_loop R R ps d pnts rng = Ok (pnts', rng') /\
    shape1 pnts' = shape1 pnts /\
    Forall2 (resampled R) ps extras /\
    rows pnts' = paste_all d (rows pnts) (blocks_of ps extras).
Proof.
  induction 1 as [|p ps (Hw & Hle & Hne) _ IH]; intros d pnts rng HR Hd.
  - exists pnts, rng, []. repeat split. constructor.
  - change (d + (shape1 p + list_sum (map shape1 ps)) <= shape1 pnts) in Hd.
    cbn [stack_loop]. rewrite Nat.leb_refl.
    destruct (choice_ok p (R - shape0 p) rng Hw)
      as (c & rng1 & Hc & Hc1 & Hc0 & Hcin & _); [lia|].
    destruct (stack_step_rows pnts p c d) as (pnts1 & Ha & Hb); try lia.
    rewrite Ha. cbn [rbind]. rewrite Hc. cbn [rbind]. rewrite Hb.
    cbn [rbind].
    set (pnts2 := {| shape1 := shape1 pnts;
                     rows := paste d (shape1 p) (rows pnts) (rows p ++ rows c) |}).
    destruct (IH (d + shape1 p) pnts2 rng1)
      as (pnts' & rng' & extras & Hl & Hs1 & Hex & Hrows).
    + unfold shape0, pnts2 in *. cbn [rows]. unfold paste.
      rewrite length_zip_with, length_app. lia.
    + cbn [pnts2 shape1]. lia.
    + exists pnts', rng', (rows c :: extras). repeat split.
      * exact Hl.
      * exact Hs1.
      * constructor; [|exact Hex]. split; [exact Hc0|exact Hcin].
      * exact Hrows.
Qed.

Lemma py_max_list_max x l : py_max (x :: l) = Ok (list_max (x :: l)).
Proof.
  unfold py_max. f_equal. revert x.
  induction l as [|y l IH]; intros x; cbn [fold_left list_max fold_right].
  - lia.
  - rewrite IH. cbn [list_max fold_right]. lia.
Qed.

(** *** Every well-formed tree has points *)

Lemma children_points_ok params n objs :
  Forall (fun o => forall rng, exists p rng',
            get_multi_ensemble_eval_points params o rng n = Ok (p, rng') /\
            points_of n o p) objs ->
  forall rng, exists ps rng',
    children_points params objs rng n = Ok (ps, rng') /\
    Forall2 (points_of n) objs ps.
Proof.
  induction 1 as [|o objs Ho _ IH]; intros rng.
  - exists [], rng. split; [reflexivity|constructor].
  - destruct (Ho rng) as (p & rng1 & Hp & Hpo).
    destruct (IH rng1) as (ps & rng2 & Hps & Hall).
    exists (p :: ps), rng2. split; [|now constructor].
    unfold children_points in *. cbn [eval_children]. rewrite Hp.
    cbn [rbind]. rewrite Hps. reflexivity.
Qed.

(** The largest number of points among the objects' is the number asked
    for, when one is. *)
Lemma target_is_max n objs ps :
  objs <> [] -> Forall2 (points_of n) objs ps ->
  default (list_max (map shape0 ps)) n = list_max (map shape0 ps) /\
  target_count n ps = list_max (map shape0 ps) /\
  Forall (fillable (list_max (map shape0 ps))) ps.
Proof.
  intros Hne Hall.
  assert (Hle : Forall (fun p => shape0 p <= list_max (map shape0 ps)) ps).
  { apply Forall_forall. intros p Hp.
    assert (H := list_max_le (map shape0 ps) (list_max (map shape0 ps))).
    destruct H as [H _]. specialize (H (Nat.le_refl _)).
    rewrite List.Forall_forall in H. apply H. apply in_map.
    now apply list_elem_of_In. }
  destruct n as [k|]; cbv [default from_option id target_count].
  - assert (Hk : Forall (fun p => shape0 p = k) ps).
    { clear -Hall. induction Hall as [|o p objs ps (_ & _ & H) _ IH];
        constructor; assumption. }
    assert (Hmax : list_max (map shape0 ps) = k).
    { destruct Hall as [|o p objs ps (_ & _ & Hp) Hall]; [contradiction|].
      apply Forall_cons in Hk as [_ Hk]. cbn [map list_max fold_right].
      fold (list_max (map shape0 ps)). rewrite Hp.
      assert (list_max (map shape0 ps) <= k); [|lia].
      apply list_max_le. rewrite List.Forall_forall. intros x Hx.
      apply in_map_iff in Hx as (q & <- & Hq).
      rewrite Forall_forall in Hk. rewrite (Hk q); [lia|].
      now apply list_elem_of_In. }
    repeat split; try congruence.
    rewrite Hmax. apply Forall_forall. intros p Hp.
    assert (Hpk : shape0 p = k) by (rewrite Forall_forall in Hk; now apply Hk).
    apply list_elem_of_lookup in Hp as (i & Hi).
    destruct (Forall2_lookup_r _ _ _ _ _ Hall Hi) as (o & _ & (Hw & _ & _)).
    repeat split; [assumption|lia|now left].
  - repeat split. apply Forall_forall. intros p Hp.
    assert (Hpk : shape0 p <= list_max (map shape0 ps))
      by (rewrite Forall_forall in Hle; now apply Hle).
    apply list_elem_of_lookup in Hp as (i & Hi).
    destruct (Forall2_lookup_r _ _ _ _ _ Hall Hi) as (o & _ & (Hw & _ & H1)).
    repeat split; [assumption|assumption|now right].
Qed.

Lemma blocks_of_widths ps extras (P : array2 -> list (list Q) -> Prop) :
  Forall2 P ps extras ->
  forall i, map fst (take i (blocks_of ps extras)) = map shape1 (take i ps).
Proof.
  induction 1 as [|p x ps extras _ _ IH]; intros [|i]; try reflexivity.
  cbn. f_equal. apply IH.
Qed.

Lemma blocks_of_fit R ps extras :
  Forall (fillable R) ps -> Forall2 (resampled R) ps extras ->
  Forall (fits R) (blocks_of ps extras).
Proof.
  intros Hf Hr. induction Hr as [|p x ps extras [Hx Hin] _ IH];
    [constructor|].
  apply Forall_cons in Hf as [(Hw & Hle & _) Hf].
  constructor; [|now apply IH]. split; cbn [fst snd].
  - rewrite length_app. unfold shape0 in *. lia.
  - apply Forall_app. split; [exact Hw|].
    unfold well_shaped in Hw. rewrite Forall_forall in *.
    intros r Hr'. apply Hw. now apply Hin.
Qed.

Lemma points_of_widths n objs ps :
  Forall2 (points_of n) objs ps -> map shape1 ps = map dimensions objs.
Proof.
  induction 1 as [|o p objs ps (_ & H & _) _ IH]; [reflexivity|].
  cbn. now rewrite H, IH.
Qed.

(** A stack, given the points of its objects. *)
Lemma stack_from_children params objs dims rng n ps rng1 :
  objs <> [] -> dims = list_sum (map dimensions objs) ->
  children_points params objs rng n = Ok (ps, rng1) ->
  Forall2 (points_of n) objs ps ->
  exists pnts rng2 extras,
    get_multi_ensemble_eval_points params (OP_STACK objs dims) rng n =
      Ok (pnts, rng2) /\
    shape1 pnts = dims /\ shape0 pnts = target_count n ps /\
    well_shaped pnts /\
    Forall2 (resampled (target_count n ps)) ps extras /\
    forall i p x, ps !! i = Some p -> extras !! i = Some x ->
      block pnts (list_sum (map shape1 (take i ps))) (shape1 p) = rows p ++ x.
Proof.
  intros Hne Hdims Hch Hps.
  destruct (target_is_max n objs ps Hne Hps) as (Hdef & Htc & Hfill).
  set (R := list_max (map shape0 ps)) in *.
  assert (Hps_ne : exists p0 ps0, ps = p0 :: ps0).
  { destruct Hps; [contradiction|eauto]. }
  destruct Hps_ne as (p0 & ps0 & Eps).
  assert (Hw : list_sum (map shape1 ps) = dims).
  { rewrite (points_of_widths n objs ps Hps). now symmetry. }
  destruct (stack_loop_ok R ps Hfill 0 (empty R dims) rng1)
    as (pnts & rng2 & extras & Hloop & Hs1 & Hex & Hrows).
  { unfold shape0, empty. cbn. apply repeat_length. }
  { cbn [empty shape1]. lia. }
  assert (Hrs : Forall (fun r : list Q => length r = dims) (rows (empty R dims))).
  { cbn [empty rows]. apply Forall_forall. intros r Hr.
    apply list_elem_of_In, repeat_spec in Hr. subst r. apply repeat_length. }
  assert (HR : length (rows (empty R dims)) = R).
  { cbn [empty rows]. apply repeat_length. }
  assert (Hfit := blocks_of_fit R ps extras Hfill Hex).
  assert (Hsum : 0 + list_sum (map fst (blocks_of ps extras)) <= dims).
  { rewrite <- (take_ge (blocks_of ps extras) (length (blocks_of ps extras)))
      by lia.
    rewrite (blocks_of_widths ps extras _ Hex), take_ge.
    - lia.
    - unfold blocks_of. rewrite length_zip_with.
      pose proof (Forall2_length _ _ _ Hex). lia. }
  destruct (paste_all_shape dims R _ Hfit 0 _ Hrs HR Hsum) as (P1 & P2 & _).
  exists pnts, rng2, extras. rewrite Htc. repeat split.
  - cbn [get_multi_ensemble_eval_points]. unfold children_points in Hch.
    rewrite Hch. cbn [rbind]. rewrite Eps. cbn [map].
    rewrite py_max_list_max. cbn [rbind]. rewrite <- Eps.
    change (list_max (shape0 p0 :: map shape0 ps0))
      with (list_max (map shape0 (p0 :: ps0))). rewrite <- Eps.
    fold R. rewrite Hdef. exact Hloop.
  - exact Hs1.
  - unfold shape0. now rewrite Hrows.
  - unfold well_shaped. rewrite Hrows, Hs1. exact P1.
  - exact Hex.
  - intros i p x Hp Hx. unfold block. rewrite Hrows.
    rewrite <- (blocks_of_widths ps extras _ Hex).
    apply (paste_all_block dims R _ Hfit 0 _ i (shape1 p) (rows p ++ x) Hrs HR
             Hsum).
    unfold blocks_of. rewrite lookup_zip_with, Hp. cbn. now rewrite Hx.
Qed.

(** A join, given the points of its objects. *)
Lemma join_from_children params objs dims rng n ps rng1 :
  objs <> [] -> Forall (fun o => dimensions o = dims) objs ->
  children_points params objs rng n = Ok (ps, rng1) ->
  Forall2 (points_of n) objs ps ->
  exists pnts rng2,
    get_multi_ensemble_eval_points params (OP_JOIN objs dims) rng n =
      Ok (pnts, rng2) /\
    shape1 pnts = dims /\ shape0 pnts = target_count n ps /\
    well_shaped pnts /\
    Forall (fun r => exists p, p ∈ ps /\ r ∈ rows p) (rows pnts).
Proof.
  intros Hne Hdims Hch Hps.
  destruct (target_is_max n objs ps Hne Hps) as (Hdef & Htc & Hfill).
  set (R := list_max (map shape0 ps)) in *.
  assert (Hs1 : Forall (fun p => well_shaped p /\ shape1 p = dims) ps).
  { clear -Hps Hdims. induction Hps as [|o p objs ps (Hw & H1 & _) _ IH];
      [constructor|].
    apply Forall_cons in Hdims as [Ho Hdims].
    constructor; [split; [assumption|congruence]|now apply IH]. }
  destruct ps as [|p0 ps0]; [inversion Hps; subst; contradiction|].
  set (ps := p0 :: ps0) in *.
  set (all := {| shape1 := shape1 p0; rows := concat (map rows ps) |}).
  assert (Hcat : concatenate0 ps = Ok all).
  { unfold concatenate0, ps.
    assert (forallb (fun q => shape1 q =? shape1 p0) ps0 = true) as ->;
      [|reflexivity].
    apply forallb_forall. intros q Hq. apply Nat.eqb_eq.
    apply Forall_cons in Hs1 as [[_ H0] Hs1]. rewrite Forall_forall in Hs1.
    destruct (Hs1 q) as [_ Hq1]; [now apply list_elem_of_In|]. congruence. }
  assert (Hall_rows : forall r, r ∈ rows all -> exists p, p ∈ ps /\ r ∈ rows p).
  { intros r Hr. cbn [all rows] in Hr. apply list_elem_of_In, in_concat in Hr.
    destruct Hr as (l & Hl & Hr). apply in_map_iff in Hl as (p & <- & Hp).
    exists p. split; now apply list_elem_of_In. }
  assert (Hall_w : well_shaped all).
  { unfold well_shaped. apply Forall_forall. intros r Hr.
    destruct (Hall_rows r Hr) as (p & Hp & Hrp).
    rewrite Forall_forall in Hs1. destruct (Hs1 p Hp) as [Hw Hp1].
    unfold well_shaped in Hw. rewrite Forall_forall in Hw.
    rewrite (Hw r Hrp). cbn [all shape1].
    destruct (Hs1 p0) as [_ H0]; [subst ps; left|]. congruence. }
  assert (Hdraw : R = 0 \/ 1 <= shape0 all).
  { assert (Hge : shape0 p0 <= shape0 all).
    { unfold shape0, all, ps. cbn [rows map concat]. rewrite length_app. lia. }
    apply Forall_cons in Hfill as [(_ & Hle & Hor) _]. lia. }
  destruct (choice_ok all R rng1 Hall_w Hdraw)
    as (c & rng2 & Hc & Hc1 & Hc0 & Hcin & Hcw).
  exists c, rng2. rewrite Htc. repeat split.
  - cbn [get_multi_ensemble_eval_points]. unfold children_points in Hch.
    rewrite Hch. cbn [rbind]. unfold ps at 1. cbn [map].
    rewrite py_max_list_max. cbn [rbind].
    change (list_max (shape0 p0 :: map shape0 ps0)) with R.
    rewrite Hdef, Hcat. cbn [rbind]. exact Hc.
  - rewrite Hc1. cbn [all shape1].
    apply Forall_cons in Hs1 as [[_ H0] _]. exact H0.
  - exact Hc0.
  - exact Hcw.
  - rewrite Forall_forall in *. intros r Hr. apply Hall_rows. now apply Hcin.
Qed.

(** A well-formed MultiEnsemble has evaluation points, of its dimensions
    and of the number asked for. *)
Lemma eval_points_ok params n mens :
  well_formed params mens ->
  forall rng, exists p rng',
    get_multi_ensemble_eval_points params mens rng n = Ok (p, rng') /\
    points_of n mens p.
Proof.
  induction mens as [ens d|objs d IH|objs d IH] using MultiEnsemble_tree_ind;
    intros Hwf rng.
  - destruct Hwf as (pnts & Hp & Hw & H1 & H0).
    cbn [get_multi_ensemble_eval_points]. rewrite Hp.
    destruct n as [k|].
    + destruct (choice_ok pnts k rng Hw) as (c & rng' & Hc & Hc1 & Hc0 & _ & Hcw);
        [lia|].
      exists c, rng'. split; [exact Hc|].
      repeat split; [assumption|cbn; congruence|assumption].
    + exists pnts, rng. split; [reflexivity|]. now repeat split.
  - apply well_formed_stack in Hwf as (Hne & Hd & Hall).
    assert (Hch : Forall (fun o => forall rng, exists p rng',
              get_multi_ensemble_eval_points params o rng n = Ok (p, rng') /\
              points_of n o p) objs).
    { rewrite Forall_forall in *. intros o Ho. apply IH; auto. }
    destruct (children_points_ok params n objs Hch rng) as (ps & rng1 & Hps & Hpo).
    destruct (stack_from_children params objs d rng n ps rng1 Hne Hd Hps Hpo)
      as (pnts & rng2 & extras & Hg & H1 & H0 & Hw & _).
    exists pnts, rng2. split; [exact Hg|].
    destruct (target_is_max n objs ps Hne Hpo) as (_ & Htc & Hfill).
    repeat split; [assumption..|].
    rewrite H0. destruct n as [k|]; [reflexivity|]. cbn [target_count].
    destruct Hpo as [|o p objs ps (_ & _ & Hp) _]; [contradiction|].
    cbn [map list_max fold_right]. lia.
  - apply well_formed_join in Hwf as (Hne & Hall).
    assert (Hch : Forall (fun o => forall rng, exists p rng',
              get_multi_ensemble_eval_points params o rng n = Ok (p, rng') /\
              points_of n o p) objs).
    { rewrite Forall_forall in *. intros o Ho. apply IH; [assumption|].
      now apply Hall. }
    assert (Hdim : Forall (fun o => dimensions o = d) objs).
    { rewrite Forall_forall in *. intros o Ho. now apply Hall. }
    destruct (children_points_ok params n objs Hch rng) as (ps & rng1 & Hps & Hpo).
    destruct (join_from_children params objs d rng n ps rng1 Hne Hdim Hps Hpo)
      as (pnts & rng2 & Hg & H1 & H0 & Hw & _).
    exists pnts, rng2. split; [exact Hg|].
    repeat split; [assumption..|].
    rewrite H0. destruct n as [k|]; [reflexivity|]. cbn [target_count].
    destruct Hpo as [|o p objs ps (_ & _ & Hp) _]; [contradiction|].
    cbn [map list_max fold_right]. lia.
Qed.

Lemma children_of_well_formed params n objs :
  Forall (well_formed params) objs ->
  forall rng, exists ps rng',
    children_points params objs rng n = Ok (ps, rng') /\
    Forall2 (points_of n) objs ps.
Proof.
  intros Hall. apply children_points_ok.
  rewrite Forall_forall in *. intros o Ho. apply eval_points_ok. now apply Hall.
Qed.

Lemma prefix_sum_step (ps : list array2) i p :
  ps !! i = Some p ->
  list_sum (map shape1 (take (S i) ps)) =
    list_sum (map shape1 (take i ps)) + shape1 p /\
  list_sum (map shape1 (take i ps)) + shape1 p <= list_sum (map shape1 ps).
Proof.
  intros Hp. split.
  - rewrite (take_S_r ps i p Hp), map_app, list_sum_app. cbn. lia.
  - rewrite <- (take_drop_middle ps i p Hp) at 2.
    rewrite map_app, list_sum_app. cbn. lia.
Qed.

(** *** Examples *)

Lemma example_well_formed :
  Forall (well_formed example_params) example_objs.
Proof.
  repeat constructor.
  - eexists. split; [reflexivity|]. repeat constructor.
  - eexists. split; [reflexivity|]. repeat constructor.
Qed.

Example example_stack :
  get_multi_ensemble_eval_points example_params (OP_STACK example_objs 2)
    example_rng None =
  Ok ({| shape1 := 2; rows := [[1; 3]; [2; 4]; [1; 5]]%Q |},
      {| stream := fun k => k; position := 1 |}).
Proof. vm_compute. reflexivity. Qed.

Example example_join :
  get_multi_ensemble_eval_points example_params (OP_JOIN example_objs 1)
    example_rng (Some 4) =
  Ok ({| shape1 := 1; rows := [[1]; [2]; [1]; [2]]%Q |},
      {| stream := fun k => k; position := 12 |}).
Proof. vm_compute. reflexivity. Qed.

(** C5. For every well-formed STACK node the evaluation points are
    returned, with as many rows as the target count ([n_eval_points], or the
    largest number of points of a child) and [dimensions] columns; the
    children's dimensions sum to [dimensions]; and child [i] owns the
    columns from the prefix sum of the preceding children's dimensions to
    where the next child's columns start: there its first rows are the
    child's own points and every further row is one of the child's own
    points. *)
Theorem stack_points_tile params objs dims rng n :
  well_formed params (OP_STACK objs dims) ->
  exists ps rng1 pnts rng2,
    children_points params objs rng n = Ok (ps, rng1) /\
    get_multi_ensemble_eval_points params (OP_STACK objs dims) rng n =
      Ok (pnts, rng2) /\
    map shape1 ps = map dimensions objs /\
    shape0 pnts = target_count n ps /\
    shape1 pnts = dims /\
    well_shaped pnts /\
    list_sum (map shape1 ps) = dims /\
    forall i p, ps !! i = Some p ->
      let off := list_sum (map shape1 (take i ps)) in
      list_sum (map shape1 (take (S i) ps)) = off + shape1 p /\
      off + shape1 p <= dims /\
      length (block pnts off (shape1 p)) = target_count n ps /\
      take (shape0 p) (block pnts off (shape1 p)) = rows p /\
      Forall (fun r => r ∈ rows p) (drop (shape0 p) (block pnts off (shape1 p))).
Proof.
  intros Hwf. apply well_formed_stack in Hwf as (Hne & Hd & Hall).
  destruct (children_of_well_formed params n objs Hall rng)
    as (ps & rng1 & Hps & Hpo).
  destruct (stack_from_children params objs dims rng n ps rng1 Hne Hd Hps Hpo)
    as (pnts & rng2 & extras & Hg & H1 & H0 & Hw & Hex & Hblk).
  pose proof (points_of_widths n objs ps Hpo) as Hwd.
  assert (Hsum : list_sum (map shape1 ps) = dims) by (rewrite Hwd; now symmetry).
  exists ps, rng1, pnts, rng2. repeat split; try assumption.
  - now apply prefix_sum_step.
  - rewrite <- Hsum. now apply prefix_sum_step.
  - unfold block. rewrite length_map. exact H0.
  - destruct (Forall2_lookup_l _ _ _ _ _ Hex H) as (x & Hx & _).
    rewrite (Hblk i p x H Hx). now apply take_app_length'.
  - destruct (Forall2_lookup_l _ _ _ _ _ Hex H) as (x & Hx & _ & Hin).
    rewrite (Hblk i p x H Hx). now rewrite drop_app_length'.
Qed.

Lemma stack_points_tile_witness :
  exists pnts rng2,
    get_multi_ensemble_eval_points example_params (OP_STACK example_objs 2)
      example_rng None = Ok (pnts, rng2) /\
    shape1 pnts = 2 /\ well_shaped pnts.
Proof.
  destruct (stack_points_tile example_params example_objs 2 example_rng None)
    as (ps & rng1 & pnts & rng2 & _ & Hg & _ & _ & H1 & Hw & _).
  - apply well_formed_stack. repeat split.
    + discriminate.
    + exact example_well_formed.
  - exists pnts, rng2. repeat split; assumption.
Defined.

(** C6. For every well-formed JOIN node the evaluation points are returned,
    with as many rows as [n_eval_points] (or, when it is unset, as the
    largest number of points of a child), and every returned row is a row
    of the points of one of the children. *)
Theorem join_points_from_children params objs dims rng n :
  well_formed params (OP_JOIN objs dims) ->
  exists ps rng1 pnts rng2,
    children_points params objs rng n = Ok (ps, rng1) /\
    get_multi_ensemble_eval_points params (OP_JOIN objs dims) rng n =
      Ok (pnts, rng2) /\
    shape0 pnts = target_count n ps /\
    shape1 pnts = dims /\
    Forall (fun r => exists p, p ∈ ps /\ r ∈ rows p) (rows pnts).
Proof.
  intros Hwf. apply well_formed_join in Hwf as (Hne & Hall).
  assert (Hwfs : Forall (well_formed params) objs).
  { rewrite Forall_forall in *. intros o Ho. now apply Hall. }
  assert (Hdim : Forall (fun o => dimensions o = dims) objs).
  { rewrite Forall_forall in *. intros o Ho. now apply Hall. }
  destruct (children_of_well_formed params n objs Hwfs rng)
    as (ps & rng1 & Hps & Hpo).
  destruct (join_from_children params objs dims rng n ps rng1 Hne Hdim Hps Hpo)
    as (pnts & rng2 & Hg & H1 & H0 & _ & Hrows).
  exists ps, rng1, pnts, rng2. repeat split; assumption.
Qed.

Lemma join_points_from_children_witness :
  exists pnts rng2,
    get_multi_ensemble_eval_points example_params (OP_JOIN example_objs 1)
      example_rng (Some 4) = Ok (pnts, rng2) /\
    shape0 pnts = 4 /\ shape1 pnts = 1.
Proof.
  destruct (join_points_from_children example_params example_objs 1
              example_rng (Some 4))
    as (ps & rng1 & pnts & rng2 & _ & Hg & H0 & H1 & _).
  - apply well_formed_join. split; [discriminate|].
    pose proof example_well_formed as H.
    unfold example_objs in *. repeat constructor;
      rewrite Forall_forall in H; apply H; repeat constructor.
  - exists pnts, rng2. repeat split; assumption.
Defined.

End EvalPointsFacts.

(** ** The weight solver's build step *)

Module BuilderFacts.
Import EvalPoints.
Import Builder.
Local Open Scope nat_scope.

(** *** The check of the number of evaluation points *)

(** The test of line 157 is false for every array: the set it builds holds
    at most the number of columns. *)
Lemma counts_differ_never (eval_points : array2) :
  counts_differ eval_points = false.
Proof.
  unfold counts_differ. apply Nat.ltb_ge.
  set (c := shape1 eval_points).
  transitivity (size ({[c]} : gset nat)); [|now rewrite size_singleton].
  apply subseteq_size. intros x Hx.
  apply elem_of_list_to_set, list_elem_of_In, in_map_iff in Hx.
  destruct Hx as (r & <- & _). now apply elem_of_singleton.
Qed.

(** [ens_a] has two evaluation points and [ens_b] three.  The check of
    line 157 does not fire; the build stops with numpy's [ValueError] in
    [np.concatenate], and the solver is not called. *)
Example build_solver_mismatched_counts :
  let m := example_model [[1]; [2]; [3]]%Q in
  fst (example_build_solver (request 0 Excitatory) no_rng m) = Err ValueError
  /\ solves (snd (example_build_solver (request 0 Excitatory) no_rng m)) = [].
Proof.
  split; vm_compute; reflexivity.
Qed.

Example build_solver_matching_counts :
  let m := example_model [[5]; [6]]%Q in
  let r := example_build_solver (request 0 Inhibitory) no_rng m in
  fst r = Ok (Owner 3)
  /\ memory (snd r) =
     [ {| shape1 := 1; rows := [[1]; [2]; [3]]%Q |};
       {| shape1 := 1; rows := [[4]; [5]; [6]]%Q |};
       {| shape1 := 1; rows := [[-4]; [-5]; [-6]]%Q |};
       {| shape1 := 2; rows := [[-4; -5]]%Q |} ].
Proof.
  split; vm_compute; reflexivity.
Qed.

(** *** Memory *)

Lemma read_valid h a : is_Some (read h a) <-> base a < length h.
Proof.
  induction a as [l|a IH n0 n1|a IH]; cbn [read base].
  - apply lookup_lt_is_Some.
  - rewrite <- IH. destruct (read h a); cbn; split; intros [? H]; eauto;
      discriminate.
  - rewrite <- IH. destruct (read h a); cbn; split; intros [? H]; eauto;
      discriminate.
Qed.

(** Appending a buffer changes no existing array. *)
Lemma read_app h x a : base a < length h -> read (h ++ x) a = read h a.
Proof.
  induction a as [l|a IH n0 n1|a IH]; cbn [read base]; intros H.
  - now apply lookup_app_l.
  - now rewrite IH.
  - now rewrite IH.
Qed.

Lemma write_length h a i j v : length (write h a i j v) = length h.
Proof.
  revert i j. induction a as [l|a IH n0 n1|a IH]; intros i j; cbn [write].
  - apply length_alter.
  - apply IH.
  - apply IH.
Qed.

(** A write through an array changes only the buffer behind it. *)
Lemma write_frame h a i j v b :
  base b <> base a -> read (write h a i j v) b = read h b.
Proof.
  intros Hne.
  assert (Hl : forall l, l <> base a -> write h a i j v !! l = h !! l).
  { clear. revert i j. induction a as [l'|a IH n0 n1|a IH]; intros i j l Hl;
      cbn [write base] in *.
    - now apply list_lookup_alter_ne.
    - now apply IH.
    - now apply IH. }
  induction b as [l|b IH n0 n1|b IH]; cbn [read base] in *.
  - now apply Hl.
  - now rewrite IH.
  - now rewrite IH.
Qed.

(** *** A request on a connection that is in [model.params] *)

Section Requests.

Variable ga : BuiltEnsemble -> Ensemble -> array2 -> option array2.
Variable gt : Connection -> array2 -> option array2.
Variable sv :
  array2 -> array2 -> list bool * list bool -> RandomState ->
  option (array2 * array2).

Lemma finish_frame w b m :
  params (snd (finish w b m)) = params m /\
  solves (snd (finish w b m)) = solves m.
Proof.
  unfold finish.
  repeat match goal with
         | |- context [match ?x with _ => _ end] => destruct x
         end; split; reflexivity.
Qed.

(** What a request that returns has returned: a new array with the
    transposed row-slice of the stored weights. *)
Lemma finish_ok w b m W m' :
  finish w b m = (Ok W, m') ->
  exists bc n0 n1 a c,
    b = BuiltConn bc /\
    pre_idx_neurons_map bc !! pre_idx w = Some (n0, n1) /\
    weights bc (synapse_type_of w) = Some a /\
    read (memory m) a = Some c /\
    W = Owner (length (memory m)) /\
    memory m' = memory m ++ [transpose (slice_rows c n0 n1)].
Proof.
  unfold finish.
  destruct (pre_obj (connection w) !! pre_idx w); [|discriminate].
  destruct b as [be|bc]; [discriminate|].
  destruct (pre_idx_neurons_map bc !! pre_idx w) as [[n0 n1]|] eqn:En;
    [|discriminate].
  destruct (weights bc (synapse_type_of w)) as [a|] eqn:Ea; [|discriminate].
  cbn [read]. destruct (read (memory m) a) as [c|] eqn:Ec; [|discriminate].
  cbn. intros H. inversion H; subst. exists bc, n0, n1, a, c. now repeat split.
Qed.

(** The [else] branch of line 203: nothing is built. *)
Lemma build_solver_cached w rng m b :
  params m !! conn_id (connection w) = Some b ->
  build_solver ga gt sv w rng m = finish w b m.
Proof.
  intros Hb. unfold build_solver, finish, bind, get_model, lift, ret.
  rewrite Hb.
  destruct (pre_obj (connection w) !! pre_idx w); [|reflexivity].
  destruct b as [be|bc]; [reflexivity|].
  destruct (pre_idx_neurons_map bc !! pre_idx w) as [[n0 n1]|]; [|reflexivity].
  destruct (weights bc (synapse_type_of w)) as [a|]; [|reflexivity].
  unfold copy, bind, get_model, raise, modify, ret, alloc.
  destruct (read (memory m) (Transpose (RowSlice a n0 n1))); reflexivity.
Qed.

(** The branch of line 113: the build, then lines 206-213. *)
Lemma build_solver_first w rng m :
  params m !! conn_id (connection w) = None ->
  build_solver ga gt sv w rng m =
  match build ga gt sv (connection w) rng m with
  | (Ok bc, m1) => finish w (BuiltConn bc) m1
  | (Err e, m1) => (Err e, m1)
  end.
Proof.
  intros Hb. unfold build_solver, bind at 1, get_model. rewrite Hb.
  unfold bind at 1 2.
  destruct (build ga gt sv (connection w) rng m) as [[bc|e] m1]; [|reflexivity].
  unfold ret. unfold finish, bind, lift.
  destruct (pre_obj (connection w) !! pre_idx w); [|reflexivity].
  destruct (pre_idx_neurons_map bc !! pre_idx w) as [[n0 n1]|]; [|reflexivity].
  destruct (weights bc (synapse_type_of w)) as [a|]; [|reflexivity].
  unfold copy, bind, get_model, raise, modify, ret, alloc.
  destruct (read (memory m1) (Transpose (RowSlice a n0 n1))); reflexivity.
Qed.


(** *** The first request *)

Lemma remove_bias_current_frame m e :
  params (snd (remove_bias_current m e)) = params m /\
  memory (snd (remove_bias_current m e)) = memory m /\
  solves (snd (remove_bias_current m e)) = solves m.
Proof.
  unfold remove_bias_current.
  destruct (sig m !! ens_id e) as [[sb si]|]; [|now repeat split].
  destruct (remove_copy sb si (operators m)); now repeat split.
Qed.

(** A build leaves an entry for the connection in [model.params] whether
    or not it raises; it calls the solver once if it returns and not at all
    if it raises; and when it returns, the arrays it stored are the
    solver's first matrix and a new array holding the negated second. *)
Lemma solve_and_store_spec conn rng m :
  let r := solve_and_store ga gt sv conn rng m in
  match fst r with
  | Err _ => snd r = m
  | Ok bc =>
      exists act tc mask WE WI,
        sv act tc mask rng = Some (WE, WI) /\
        solves (snd r) = solve_of conn act tc mask WE WI :: solves m /\
        memory (snd r) = memory m ++ [WE; WI; neg WI] /\
        weights_exc bc = Some (Owner (length (memory m))) /\
        weights_inh bc = Some (Owner (length (memory m) + 2)) /\
        params (snd r) = <[conn_id conn := BuiltConn bc]> (params m)
  end.
Proof.
  unfold solve_and_store, bind, get_model, lift, raise.
  destruct (gather ga m conn (pre conn) nothing_gathered) as [g|]; [|reflexivity].
  destruct (last_eval_points g) as [ep|]; [|reflexivity].
  rewrite counts_differ_never.
  destruct (solver_inputs gt m conn g) as [[[act tc] mask]|]; [|reflexivity].
  destruct (sv act tc mask rng) as [[WE WI]|] eqn:Esv; [|reflexivity].
  cbn. exists act, tc, mask, WE, WI. repeat split.
  - exact Esv.
  - now rewrite <- !app_assoc.
  - rewrite !length_app. cbn. do 2 f_equal. lia.
Qed.

Lemma build_unfold conn rng m :
  build ga gt sv conn rng m =
  let m0 := set_params <[conn_id conn := BuiltConn new_built_connection]> m in
  if decode_bias conn then
    match remove_bias_current m0 (post_obj conn) with
    | (Ok _, m1) => solve_and_store ga gt sv conn rng m1
    | (Err e, m1) => (Err e, m1)
    end
  else solve_and_store ga gt sv conn rng m0.
Proof.
  unfold build, bind, modify, ret. cbv zeta.
  destruct (decode_bias conn); [|reflexivity].
  destruct (remove_bias_current _ (post_obj conn)) as [[b|e] m1]; reflexivity.
Qed.

Lemma build_spec conn rng m :
  let r := build ga gt sv conn rng m in
  is_Some (params (snd r) !! conn_id conn) /\
  match fst r with
  | Err _ => solves (snd r) = solves m
  | Ok bc =>
      exists act tc mask WE WI,
        sv act tc mask rng = Some (WE, WI) /\
        solves (snd r) = solve_of conn act tc mask WE WI :: solves m /\
        memory (snd r) = memory m ++ [WE; WI; neg WI] /\
        weights_exc bc = Some (Owner (length (memory m))) /\
        weights_inh bc = Some (Owner (length (memory m) + 2)) /\
        params (snd r) !! conn_id conn = Some (BuiltConn bc)
  end.
Proof.
  cbv zeta. rewrite build_unfold. cbv zeta.
  set (m0 := set_params <[conn_id conn:=BuiltConn new_built_connection]> m).
  assert (H0 : is_Some (params m0 !! conn_id conn)).
  { subst m0. cbn. rewrite lookup_insert_eq. eauto. }
  assert (Hstep : forall m1,
    is_Some (params m1 !! conn_id conn) -> memory m1 = memory m ->
    solves m1 = solves m ->
    let r := solve_and_store ga gt sv conn rng m1 in
    is_Some (params (snd r) !! conn_id conn) /\
    match fst r with
    | Err _ => solves (snd r) = solves m
    | Ok bc =>
        exists act tc mask WE WI,
          sv act tc mask rng = Some (WE, WI) /\
          solves (snd r) = solve_of conn act tc mask WE WI :: solves m /\
          memory (snd r) = memory m ++ [WE; WI; neg WI] /\
          weights_exc bc = Some (Owner (length (memory m))) /\
          weights_inh bc = Some (Owner (length (memory m) + 2)) /\
          params (snd r) !! conn_id conn = Some (BuiltConn bc)
    end).
  { intros m1 Hp Hmem Hs. pose proof (solve_and_store_spec conn rng m1) as H.
    cbv zeta in *.
    destruct (solve_and_store ga gt sv conn rng m1) as [[bc|e] m2]; cbn in *.
    - destruct H as (act & tc & mask & WE & WI & Hsv & Hsol & Hm & He & Hi & Hpar).
      split; [rewrite Hpar, lookup_insert_eq; eauto|].
      exists act, tc, mask, WE, WI. rewrite <- Hmem, <- Hs.
      repeat split; try assumption. now rewrite Hpar, lookup_insert_eq.
    - subst m2. split; assumption. }
  destruct (decode_bias conn).
  - destruct (remove_bias_current_frame m0 (post_obj conn)) as (Hp & Hmem & Hs).
    destruct (remove_bias_current m0 (post_obj conn)) as [[b|e] m1];
      cbn [fst snd] in Hp, Hmem, Hs |- *.
    + apply Hstep; rewrite ?Hp; assumption.
    + rewrite Hp, Hs. split; [assumption|reflexivity].
  - apply Hstep; [assumption|reflexivity|reflexivity].
Qed.


Lemma lookup_third {A} (l r : list A) (x y z : A) :
  (l ++ x :: y :: z :: r) !! (length l + 2) = Some z.
Proof. induction l as [|a l IH]; [reflexivity|exact IH]. Qed.

Lemma neg_nonpositive (m : array2) :
  all_entries (fun x => 0 <= x)%Q m -> all_entries (fun x => x <= 0)%Q (neg m).
Proof.
  unfold all_entries, neg. cbn [rows]. intros H.
  apply Forall_forall. intros r Hr.
  apply list_elem_of_In, in_map_iff in Hr as (r0 & <- & Hr0).
  rewrite Forall_forall in H. specialize (H r0 (proj2 (list_elem_of_In _ _) Hr0)).
  apply Forall_forall. intros x Hx.
  apply list_elem_of_In, in_map_iff in Hx as (x0 & <- & Hx0).
  rewrite Forall_forall in H. specialize (H x0 (proj2 (list_elem_of_In _ _) Hx0)).
  cbn beta in H. lra.
Qed.

(** The loop over [conn.pre] when the connection has no evaluation points
    of its own: it collects the evaluation points of the pre ensembles. *)
Lemma gather_own_points m conn pres bs :
  conn_eval_points conn = None ->
  Forall2 (fun e b => params m !! ens_id e = Some (BuiltEns b) /\
                      is_Some (ga b e (eval_points b))) pres bs ->
  forall g0, exists g,
    gather ga m conn pres g0 = Ok g /\
    eval_points_list g = eval_points_list g0 ++ map eval_points bs /\
    (is_Some (last_eval_points g0) \/ pres <> [] ->
     is_Some (last_eval_points g)).
Proof.
  intros Hnone. induction 1 as [|e b pres bs [Hp [act Ha]] _ IH]; intros g0.
  - exists g0. cbn. rewrite app_nil_r. repeat split. intros [H|H]; [exact H|].
    contradiction.
  - cbn [gather]. rewrite Hnone. unfold built_ensemble. rewrite Hp.
    cbn [rbind]. rewrite Ha. cbn [external rbind].
    match goal with |- context [gather ga m conn pres ?g1] =>
      destruct (IH g1) as (g & Hg & Hl & Hlast) end.
    exists g. split; [exact Hg|]. split.
    + rewrite Hl. cbn [eval_points_list map]. now rewrite <- app_assoc.
    + intros _. apply Hlast. left. cbn. eauto.
Qed.

(** C1 (the code at every failing input).  For every first weight request
    on a connection without evaluation points of its own, whose pre
    ensembles are built and two of which have different numbers of
    evaluation points: [build_solver] raises numpy's [ValueError], not the
    [BuildError] of lines 158-160; the solver is not called. *)
Theorem mismatched_counts_raise_value_error w rng m bs b1 b2 :
  params m !! conn_id (connection w) = None ->
  (decode_bias (connection w) = true ->
   is_Some (sig m !! ens_id (post_obj (connection w)))) ->
  conn_eval_points (connection w) = None ->
  Forall2 (fun e b => params m !! ens_id e = Some (BuiltEns b) /\
                      is_Some (ga b e (eval_points b)))
    (pre (connection w)) bs ->
  b1 ∈ bs -> b2 ∈ bs ->
  shape0 (eval_points b1) <> shape0 (eval_points b2) ->
  fst (build_solver ga gt sv w rng m) = Err ValueError /\
  solves (snd (build_solver ga gt sv w rng m)) = solves m.
Proof.
  intros Hnone Hsig Hep Hpre Hb1 Hb2 Hdiff.
  set (conn := connection w) in *.
  rewrite (build_solver_first w rng m Hnone). fold conn.
  assert (Hstore : forall m1,
    params m1 = <[conn_id conn := BuiltConn new_built_connection]> (params m) ->
    solve_and_store ga gt sv conn rng m1 = (Err ValueError, m1)).
  { intros m1 Hm1.
    assert (Hpre1 : Forall2 (fun e b => params m1 !! ens_id e = Some (BuiltEns b) /\
                               is_Some (ga b e (eval_points b))) (pre conn) bs).
    { eapply Forall2_impl; [exact Hpre|]. intros e b [Hp Ha]. split; [|exact Ha].
      rewrite Hm1, lookup_insert_ne; [exact Hp|]. intros Heq.
      rewrite Heq in Hnone. congruence. }
    destruct (gather_own_points m1 conn (pre conn) bs Hep Hpre1 nothing_gathered)
      as (g & Hg & Hl & Hlast).
    assert (Hne : pre conn <> []).
    { intros Hnil. rewrite Hnil in Hpre. inversion Hpre; subst.
      now apply not_elem_of_nil in Hb1. }
    destruct Hlast as [ep Hlast]; [now right|].
    unfold solve_and_store, bind, get_model, lift, raise.
    rewrite Hg, Hlast, counts_differ_never.
    assert (Hcat : concatenate1 (eval_points_list g) = Err ValueError).
    { rewrite Hl. cbn [nothing_gathered eval_points_list app].
      destruct bs as [|b0 bs0]; [now apply not_elem_of_nil in Hb1|].
      cbn [map concatenate1].
      destruct (forallb _ (map eval_points bs0)) eqn:Hall; [|reflexivity].
      exfalso. rewrite forallb_forall in Hall.
      assert (Hsame : forall b, b ∈ b0 :: bs0 ->
                shape0 (eval_points b) = shape0 (eval_points b0)).
      { intros b Hb. apply elem_of_cons in Hb as [->|Hb]; [reflexivity|].
        apply Nat.eqb_eq, Hall, in_map. now apply list_elem_of_In. }
      apply Hdiff. rewrite (Hsame b1 Hb1), (Hsame b2 Hb2). reflexivity. }
    unfold solver_inputs. now rewrite Hcat. }
  rewrite build_unfold. cbv zeta. fold conn.
  destruct (decode_bias conn) eqn:Hdb.
  - destruct (Hsig eq_refl) as [[sb si] Hs].
    unfold remove_bias_current. cbn [sig set_params]. rewrite Hs.
    destruct (remove_copy sb si _); cbn [operators set_params];
      rewrite Hstore by reflexivity; split; reflexivity.
  - rewrite Hstore by reflexivity. split; reflexivity.
Qed.

(** C8. For every first weight request on a connection that returns: the
    solver was called once, with result [(WE, WI)]; the BuiltConnection in
    [model.params] stores under [Excitatory] an array holding [WE] and
    under [Inhibitory] an array holding [-WI]; so if all entries of [WE]
    and [WI] are non-negative, the stored excitatory weights are
    non-negative and the stored inhibitory weights are non-positive. *)
Theorem stored_weights_have_signs w rng m W m' :
  params m !! conn_id (connection w) = None ->
  build_solver ga gt sv w rng m = (Ok W, m') ->
  exists act tc mask WE WI bc we wi,
    sv act tc mask rng = Some (WE, WI) /\
    solves m' = solve_of (connection w) act tc mask WE WI :: solves m /\
    params m' !! conn_id (connection w) = Some (BuiltConn bc) /\
    weights bc Excitatory = Some we /\
    weights bc Inhibitory = Some wi /\
    read (memory m') we = Some WE /\
    read (memory m') wi = Some (neg WI) /\
    (all_entries (fun x => 0 <= x)%Q WE ->
     all_entries (fun x => 0 <= x)%Q WI ->
     exists E I, read (memory m') we = Some E /\ read (memory m') wi = Some I /\
                 all_entries (fun x => 0 <= x)%Q E /\
                 all_entries (fun x => x <= 0)%Q I).
Proof.
  intros Hnone Hrun. rewrite (build_solver_first w rng m Hnone) in Hrun.
  pose proof (build_spec (connection w) rng m) as Hb. cbv zeta in Hb.
  destruct (build ga gt sv (connection w) rng m) as [[bc|e] m1];
    [|discriminate].
  cbn [fst snd] in Hb.
  destruct Hb as (_ & act & tc & mask & WE & WI & Hsv & Hsol & Hmem & He & Hi & Hp).
  destruct (finish_frame w (BuiltConn bc) m1) as [Hfp Hfs].
  rewrite Hrun in Hfp, Hfs. cbn [snd] in Hfp, Hfs.
  apply finish_ok in Hrun as (bc' & n0 & n1 & a & c & _ & _ & _ & _ & _ & Hm').
  assert (HrE : read (memory m') (Owner (length (memory m))) = Some WE).
  { cbn [read]. rewrite Hm', Hmem, <- app_assoc. cbn [app].
    now apply list_lookup_middle. }
  assert (HrI : read (memory m') (Owner (length (memory m) + 2)) = Some (neg WI)).
  { cbn [read]. rewrite Hm', Hmem, <- app_assoc. cbn [app].
    apply lookup_third. }
  exists act, tc, mask, WE, WI, bc, (Owner (length (memory m))),
    (Owner (length (memory m) + 2)).
  repeat split; try assumption; try congruence.
  intros HE HI. exists WE, (neg WI). repeat split; try assumption.
  now apply neg_nonpositive.
Qed.

(** C10. For every weight request on a connection that is built: the
    caller gets a new array holding the transposed row-slice
    [n0:n1] of the stored matrix of the requested sign, where [(n0, n1)] is
    [pre_idx_neurons_map[pre_idx]]; the new array shares memory with no
    array that existed before, [model.params] is unchanged, and writing to
    any entry of the new array changes no array that existed before, the
    stored weight matrices among them. *)
Theorem returned_weights_are_a_copy w rng m bc e n0 n1 a cached :
  params m !! conn_id (connection w) = Some (BuiltConn bc) ->
  pre_obj (connection w) !! pre_idx w = Some e ->
  pre_idx_neurons_map bc !! pre_idx w = Some (n0, n1) ->
  weights bc (synapse_type_of w) = Some a ->
  read (memory m) a = Some cached ->
  exists W m',
    build_solver ga gt sv w rng m = (Ok W, m') /\
    read (memory m') W = Some (transpose (slice_rows cached n0 n1)) /\
    params m' = params m /\
    forall b, is_Some (read (memory m) b) ->
      shares_memory W b = false /\
      read (memory m') b = read (memory m) b /\
      forall i j v, read (write (memory m') W i j v) b = read (memory m) b.
Proof.
  intros Hp He Hn Ha Hc.
  rewrite (build_solver_cached w rng m _ Hp). unfold finish.
  rewrite He, Hn, Ha. cbn [read]. rewrite Hc. cbn [fmap option_fmap option_map].
  eexists _, _. split; [reflexivity|]. cbn [memory set_memory params].
  split; [|split; [reflexivity|]].
  - cbn [read]. now apply list_lookup_middle.
  - intros b Hb. apply read_valid in Hb.
    assert (Hne : base b <> base (Owner (length (memory m))))
      by (cbn [base]; lia).
    repeat split.
    + unfold shares_memory. cbn [base]. apply Nat.eqb_neq. lia.
    + now apply read_app.
    + intros i j v. rewrite write_frame by exact Hne. now apply read_app.
Qed.




End Requests.

(** *** The theorems on the small model *)

Lemma mismatched_counts_raise_value_error_witness :
  fst (example_build_solver (request 0 Excitatory) no_rng
         (example_model [[1]; [2]; [3]]%Q)) = Err ValueError.
Proof.
  apply (mismatched_counts_raise_value_error example_activities
           example_targets example_solver (request 0 Excitatory) no_rng
           (example_model [[1]; [2]; [3]]%Q)
           [built_pre_ens [[1]; [2]]%Q 2; built_pre_ens [[1]; [2]; [3]]%Q 1]
           (built_pre_ens [[1]; [2]]%Q 2)
           (built_pre_ens [[1]; [2]; [3]]%Q 1)).
  - vm_compute. reflexivity.
  - discriminate.
  - reflexivity.
  - repeat constructor; cbn; eauto.
  - left.
  - right. left.
  - cbn. discriminate.
Defined.

Lemma stored_weights_have_signs_witness :
  exists bc wi,
    params built_model !! 7 = Some (BuiltConn bc) /\
    weights bc Inhibitory = Some wi /\
    read (memory built_model) wi =
      Some {| shape1 := 1; rows := [[-4]; [-5]; [-6]]%Q |}.
Proof.
  destruct (stored_weights_have_signs example_activities example_targets
              example_solver (request 0 Inhibitory) no_rng matching_model
              (Owner 3) built_model)
    as (act & tc & mask & WE & WI & bc & we & wi &
        Hsv & _ & Hp & _ & Hwi & _ & HrI & _).
  - vm_compute. reflexivity.
  - apply injective_projections; [vm_compute; reflexivity|reflexivity].
  - unfold example_solver in Hsv. inversion Hsv; subst WE WI.
    exists bc, wi. split; [exact Hp|]. split; [exact Hwi|]. exact HrI.
Defined.

Lemma returned_weights_are_a_copy_witness :
  exists W m',
    example_build_solver (request 1 Excitatory) no_rng built_model = (Ok W, m') /\
    read (memory m') W = Some {| shape1 := 1; rows := [[3%Q]] |} /\
    params m' = params built_model.
Proof.
  destruct (returned_weights_are_a_copy example_activities example_targets
              example_solver (request 1 Excitatory) no_rng built_model
              example_built ens_b 2 3 (Owner 0)
              {| shape1 := 1; rows := [[1]; [2]; [3]]%Q |})
    as (W & m' & Hrun & Hread & Hp & _);
    try (vm_compute; reflexivity).
  exists W, m'. split; [exact Hrun|]. split; [exact Hread|exact Hp].
Defined.



End BuilderFacts.

(** ** More on the reference simulator *)

Module ReferenceMore.
Import Reference.
Import ReferenceFacts.
Local Open Scope Q_scope.

Lemma Qltb_eq_compat a a' b b' : a == a' -> b == b' -> Qltb a b = Qltb a' b'.
Proof. intros Ha Hb. unfold Qltb. now rewrite Ha, Hb. Qed.

Lemma Qleb_eq_compat a a' b b' : a == a' -> b == b' -> Qleb a b = Qleb a' b'.
Proof. intros Ha Hb. unfold Qleb. now rewrite Ha, Hb. Qed.

(** A substep that starts and ends refractory: the timer loses one substep
    width, the voltage is clamped, nothing is credited. *)
Lemma substep_refractory nrn dt ss gE gI s out :
  substep_width dt ss < tref s -> 0 < substep_width dt ss ->
  let r := substep nrn dt ss gE gI (s, out) in
  snd r = out /\
  tref (fst r) = tref s - substep_width dt ss /\
  v_som (fst r) =
    (if Qltb (tau_ref nrn) (tref s - substep_width dt ss) then v_spike nrn
     else v_reset nrn).
Proof.
  intros Hlt Hpos.
  assert (Hp : Qltb 0 (tref s) = true) by (apply Qltb_lt; lra).
  unfold substep, spike, crosses, end_of_substep, refractory, euler.
  cbn [fst snd tref v_som v_den]. rewrite Hp. cbn [fst snd tref v_som v_den].
  assert (Hle : Qleb (tref s - substep_width dt ss) 0 = false).
  { destruct (Qleb (tref s - substep_width dt ss) 0) eqn:E; [|reflexivity].
    apply Qleb_le in E. lra. }
  rewrite Hle, andb_false_r. cbn [fst snd tref v_som]. now repeat split.
Qed.

Lemma substeps_refractory nrn dt ss gE gI s out k :
  0 < substep_width dt ss ->
  inject_Z (Z.of_nat k) * substep_width dt ss < tref s ->
  let r := substeps k nrn dt ss gE gI (s, out) in
  snd r = out /\
  tref (fst r) == tref s - inject_Z (Z.of_nat k) * substep_width dt ss /\
  ((0 < k)%nat ->
   v_som (fst r) =
     (if Qltb (tau_ref nrn)
           (tref s - inject_Z (Z.of_nat k) * substep_width dt ss)
      then v_spike nrn else v_reset nrn)).
Proof.
  intros Hpos. induction k as [|k IH]; intros Hk.
  - cbn [substeps fst snd]. split; [reflexivity|]. split; [|lia].
    cbn. ring.
  - assert (Hk' : inject_Z (Z.of_nat (S k)) ==
                  inject_Z (Z.of_nat k) + 1).
    { rewrite Nat2Z.inj_succ. unfold Z.succ. now rewrite inject_Z_plus. }
    rewrite Hk' in Hk.
    destruct IH as (IHo & IHt & _); [lra|].
    cbn [substeps].
    destruct (substeps k nrn dt ss gE gI (s, out)) as [sk ok].
    cbn [fst snd] in IHo, IHt. subst ok.
    destruct (substep_refractory nrn dt ss gE gI sk out) as (Ho & Ht & Hv);
      [rewrite IHt; lra|assumption|].
    split; [exact Ho|]. split.
    + rewrite Ht, IHt, Hk'. ring.
    + intros _. rewrite Hv.
      rewrite (Qltb_eq_compat (tau_ref nrn) (tau_ref nrn)
                 (tref sk - substep_width dt ss)
                 (tref s - inject_Z (Z.of_nat (S k)) * substep_width dt ss));
        [reflexivity|reflexivity|]. rewrite IHt, Hk'. ring.
Qed.

(** X1.  A call that starts with at least two steps left on the refractory
    timer spends the whole step refractory: it credits no spike whatever
    the conductances are, the timer is still running when the call ends,
    and the somatic voltage is left clamped at [v_spike] or at
    [v_reset]. *)
Theorem refractory_call_is_silent nrn dt ss out gE gI s :
  0 < dt -> (0 < ss)%nat -> 2 * dt <= tref s ->
  let r := call nrn dt ss out gE gI s in
  snd r = out /\ 0 < tref (fst r) /\
  (v_som (fst r) = v_spike nrn \/ v_som (fst r) = v_reset nrn).
Proof.
  intros Hdt Hss Hlt.
  assert (Hn : 0 < inject_Z (Z.of_nat ss)).
  { change 0 with (inject_Z 0). rewrite <- Zlt_Qlt. lia. }
  assert (Hw : inject_Z (Z.of_nat ss) * substep_width dt ss == dt).
  { unfold substep_width. field. lra. }
  assert (Hpos : 0 < substep_width dt ss).
  { unfold substep_width. apply Qlt_shift_div_l; lra. }
  destruct (substeps_refractory nrn dt ss gE gI s out ss Hpos) as (Ho & Ht & Hv);
    [rewrite Hw; lra|].
  unfold call. split; [exact Ho|]. split.
  - rewrite Ht, Hw. lra.
  - rewrite (Hv Hss).
    destruct (Qltb (tau_ref nrn) _); [left|right]; reflexivity.
Qed.

Lemma refractory_call_is_silent_witness :
  let r := call default_neuron (1 # 1000) 10 0 (1 # 1000000) 0
             {| v_som := 20 # 1000; v_den := 0; tref := 3 # 1000 |} in
  snd r = 0 /\ 0 < tref (fst r) /\
  (v_som (fst r) = v_spike default_neuron \/
   v_som (fst r) = v_reset default_neuron).
Proof.
  refine (refractory_call_is_silent default_neuron (1 # 1000) 10 0
            (1 # 1000000) 0
            {| v_som := 20 # 1000; v_den := 0; tref := 3 # 1000 |} _ _ _);
    [reflexivity|lia|discriminate].
Defined.











End ReferenceMore.

(** ** More on the rate functions of [LIF] *)

Module LIFMore.
Import Reference.
Import LIF.
Import LIFFacts.
Local Open Scope Q_scope.

Lemma lif_parameters_ok nrn :
  ~ g_leak_som nrn == 0 ->
  _lif_parameters nrn =
  Ok (tau_spike nrn + tau_ref nrn, C_som nrn / g_leak_som nrn,
      threshold_current nrn).
Proof.
  intros Hg. unfold _lif_parameters.
  destruct (Qeq_bool (g_leak_som nrn) 0) eqn:E; [|reflexivity].
  apply Qeq_bool_iff in E. contradiction.
Qed.

Lemma zip_with_fadd_finite (xs ys : list Q) :
  zip_with fadd (map Fin xs) (map Fin ys) =
  map Fin (zip_with Qplus xs ys).
Proof.
  revert ys. induction xs as [|x xs IH]; intros [|y ys]; try reflexivity.
  cbn [map zip_with]. now rewrite IH.
Qed.

(** A zero gain makes its intercept non-finite. *)
Lemma intercepts_not_finite (i_th : Q) (gain bias : list Q) :
  length gain = length bias ->
  Exists (fun g => g == 0) gain ->
  forallb isfinite
    (zip_with fdiv (map (fun b => fsub (Fin i_th) b) (map Fin bias))
       (map Fin gain)) = false.
Proof.
  intros Hlen H. revert bias Hlen.
  induction H as [g gain Hg|g gain _ IH]; intros [|b bias] Hlen;
    try discriminate.
  - cbn [map zip_with forallb fsub fneg fadd fdiv].
    apply Qeq_bool_iff in Hg. rewrite Hg.
    destruct (i_th + - b ?= 0); reflexivity.
  - cbn [map zip_with forallb]. rewrite IH by (cbn in Hlen; lia).
    apply andb_false_r.
Qed.

(** X4.  A gain of zero anywhere makes [max_rates_intercepts] fail: for
    finite gains and biases of equal length, on a neuron whose leak
    conductance is not zero, the intercept of a zero gain is a division by
    zero, hence not finite, and the call stops with [NameError] at
    [warnings.warn] instead of returning. *)
Theorem zero_gain_raises_name_error rate nrn (gain bias : list Q) :
  ~ g_leak_som nrn == 0 ->
  length gain = length bias ->
  Exists (fun g => g == 0) gain ->
  max_rates_intercepts rate nrn (map Fin gain) (map Fin bias) =
  Err (NameError "warnings").
Proof.
  intros Hg Hlen Hz. unfold max_rates_intercepts, _lif_rate.
  rewrite broadcast2_same_length by (rewrite !length_map; exact Hlen).
  rewrite zip_with_fadd_finite, (lif_parameters_ok nrn Hg). cbn [rbind].
  rewrite broadcast2_same_length by (rewrite !length_map; lia).
  cbn [rbind]. now rewrite intercepts_not_finite.
Qed.

Lemma zero_gain_raises_name_error_witness :
  max_rates_intercepts rate_example default_neuron
    (map Fin [2; 0]) (map Fin [1; 1]) = Err (NameError "warnings").
Proof.
  apply (zero_gain_raises_name_error rate_example default_neuron
           [2; 0] [1; 1]).
  - vm_compute. discriminate.
  - reflexivity.
  - right. left. reflexivity.
Defined.

Lemma zip_with_replicate_r {A B C} (f : A -> B -> C) xs y :
  zip_with f xs (replicate (length xs) y) = map (fun x => f x y) xs.
Proof.
  induction xs as [|x xs IH]; [reflexivity|].
  cbn [length replicate zip_with map]. now rewrite IH.
Qed.

Lemma broadcast2_single_r {A B C} (f : A -> B -> C) xs y :
  broadcast2 f xs [y] = broadcast2 f xs (replicate (length xs) y).
Proof.
  rewrite (broadcast2_same_length f xs (replicate (length xs) y))
    by (now rewrite length_replicate).
  rewrite zip_with_replicate_r. unfold broadcast2.
  destruct xs as [|x [|x' xs]]; reflexivity.
Qed.

(** X7.  [gain_bias] broadcasts a single intercept over all requested rates:
    the result, or the exception, is the one for the intercept repeated
    once per rate. *)
Theorem gain_bias_broadcasts_intercept inv nrn (max_rates : list Q) (c : Q) :
  gain_bias inv nrn max_rates [c] =
  gain_bias inv nrn max_rates (replicate (length max_rates) c).
Proof.
  unfold gain_bias, _lif_rate_inv.
  destruct (_lif_parameters nrn) as [[[tau rc] i_th]|]; [|reflexivity].
  cbn [rbind].
  destruct (exceeds_attainable tau max_rates); [reflexivity|].
  change (map (fun c0 => Fin (1 - c0)) [c]) with [Fin (1 - c)].
  rewrite fmap_replicate.
  rewrite broadcast2_single_r. rewrite !length_map. reflexivity.
Qed.

(** X8.  Rates and intercepts of different lengths, neither of length one,
    cannot be broadcast: [gain_bias] raises numpy's [ValueError], provided
    the rates pass validation. *)
Theorem gain_bias_incompatible_lengths inv nrn (max_rates intercepts : list Q) :
  ~ g_leak_som nrn == 0 ->
  exceeds_attainable (tau_spike nrn + tau_ref nrn) max_rates = false ->
  length max_rates <> length intercepts ->
  length max_rates <> 1%nat -> length intercepts <> 1%nat ->
  gain_bias inv nrn max_rates intercepts = Err ValueError.
Proof.
  intros Hg Hex Hne H1 H2. unfold gain_bias, _lif_rate_inv.
  rewrite (lif_parameters_ok nrn Hg). cbn [rbind]. rewrite Hex.
  unfold broadcast2 at 1. rewrite !length_map.
  destruct (Nat.eqb_spec (length max_rates) (length intercepts)) as [E|_];
    [contradiction|].
  destruct max_rates as [|r [|r' rs]], intercepts as [|c [|c' cs]];
    cbn in Hne, H1, H2 |- *; try reflexivity; congruence.
Qed.

Lemma gain_bias_incompatible_lengths_witness :
  gain_bias rate_inv_example default_neuron [100; 200] [0; 0; 0] =
  Err ValueError.
Proof.
  apply (gain_bias_incompatible_lengths rate_inv_example default_neuron
           [100; 200] [0; 0; 0]).
  - vm_compute. discriminate.
  - reflexivity.
  - cbn. lia.
  - cbn. lia.
  - cbn. lia.
Defined.

(** X9.  The leak conductance is never validated; when it is zero,
    [_lif_parameters] divides by it and every rate computation stops with
    [ZeroDivisionError]: [gain_bias] for all arguments, before it looks at
    the rates, and [max_rates_intercepts] and [rates] once their arrays
    have been combined. *)
Theorem zero_leak_conductance_raises rate inv nrn :
  g_leak_som nrn == 0 ->
  (forall max_rates intercepts,
     gain_bias inv nrn max_rates intercepts = Err ZeroDivisionError) /\
  (forall gain bias,
     length gain = length bias ->
     max_rates_intercepts rate nrn gain bias = Err ZeroDivisionError) /\
  (forall x gain bias,
     length x = length gain -> length gain = length bias ->
     rates rate nrn x gain bias = Err ZeroDivisionError).
Proof.
  intros Hg.
  assert (Hp : _lif_parameters nrn = Err ZeroDivisionError).
  { unfold _lif_parameters.
    now rewrite (proj2 (Qeq_bool_iff (g_leak_som nrn) 0) Hg). }
  split; [|split].
  - intros mr ic. unfold gain_bias. now rewrite Hp.
  - intros gain bias Hlen. unfold max_rates_intercepts, _lif_rate.
    rewrite broadcast2_same_length by exact Hlen. cbn [rbind].
    now rewrite Hp.
  - intros x gain bias Hx Hlen. unfold rates, _lif_rate.
    rewrite broadcast2_same_length by (symmetry; exact Hx). cbn [rbind].
    rewrite broadcast2_same_length by (rewrite length_zip_with; lia).
    cbn [rbind]. now rewrite Hp.
Qed.

Lemma zero_leak_conductance_raises_witness :
  gain_bias rate_inv_example
    {| C_som := 1; C_den := 1; g_leak_som := 0; g_leak_den := 1;
       g_couple := 1; E_rev_leak := 0; E_rev_exc := 1; E_rev_inh := -1;
       tau_ref := 0; tau_spike := 0; v_th := 1; v_reset := 0; v_spike := 2;
       subsample := 1 |} [100] [0] = Err ZeroDivisionError.
Proof.
  apply (zero_leak_conductance_raises rate_example rate_inv_example).
  reflexivity.
Defined.

End LIFMore.

(** ** More on the evaluation points *)

Module EvalPointsMore.
Import EvalPoints.
Import EvalPointsFacts.
Local Open Scope nat_scope.

Lemma resolvable_node params objs :
  (fix all (l : list MultiEnsemble) : Prop :=
     match l with
     | [] => True
     | o :: l' => resolvable params o /\ all l'
     end) objs <-> Forall (resolvable params) objs.
Proof.
  induction objs as [|o objs IH].
  - split; [constructor|trivial].
  - split.
    + intros [Ho Hr]. constructor; [exact Ho|now apply IH].
    + intros H. inversion H; subst. split; [assumption|now apply IH].
Qed.

Lemma broadcast_axis_length {A} n (l l' : list A) :
  broadcast_axis n l = Some l' -> length l' = n.
Proof.
  unfold broadcast_axis. destruct (length l =? n) eqn:E.
  - apply Nat.eqb_eq in E. intros H. inversion H as [H']. rewrite <- H'.
    exact E.
  - destruct l as [|x [|y l]]; try discriminate.
    intros H. inversion H. apply repeat_length.
Qed.

(** A slice assignment never changes the shape of its target. *)
Lemma assign_block_shape dst r0 r1 c0 c1 src out :
  assign_block dst r0 r1 c0 c1 src = Ok out ->
  shape1 out = shape1 dst /\ shape0 out = shape0 dst.
Proof.
  unfold assign_block.
  destruct (negb _); [discriminate|].
  destruct (broadcast_axis _ (rows src)) as [srows|] eqn:E; [|discriminate].
  apply broadcast_axis_length in E.
  intros H. inversion H; subst out. clear H. split; [reflexivity|].
  unfold shape0 in *. cbn [rows].
  rewrite !length_app, length_zip_with, !length_take, !length_drop, E. lia.
Qed.

Lemma take_rows_length (rs : list (list Q)) idx out :
  take_rows rs idx = Ok out -> length out = length idx.
Proof.
  revert out. induction idx as [|i idx IH]; intros out; cbn [take_rows].
  - intros H. now inversion H.
  - destruct (rs !! i) as [r|]; [|discriminate].
    destruct (take_rows rs idx) as [t|]; [|discriminate].
    cbn [rbind]. intros H. inversion H. cbn. now rewrite (IH t).
Qed.

(** [choice(A, n)] returns [n] rows when it returns, and takes [n] numbers
    from the generator. *)
Lemma choice_rows a n rng c rng' :
  choice a n rng = Ok (c, rng') ->
  shape0 c = n /\ shape1 c = shape1 a /\
  stream rng' = stream rng /\ position rng' = position rng + n.
Proof.
  unfold choice, randint. destruct (Nat.eqb_spec n 0) as [->|Hn].
  - cbn [rbind take_rows]. intros H. inversion H; subst. cbn.
    repeat split. lia.
  - destruct (shape0 a <=? 0); [discriminate|]. cbn [rbind].
    destruct (take_rows (rows a) _) as [out|] eqn:E; [|discriminate].
    cbn [rbind]. intros H. inversion H; subst. cbn.
    apply take_rows_length in E. rewrite length_map, length_seq in E.
    repeat split. exact E.
Qed.

(** The loop of the stack keeps the shape of its target; where every
    object already has the number of rows asked for, no number is
    drawn. *)
Lemma stack_loop_shape n ps :
  Forall (fun p => shape0 p = n) ps ->
  forall d pnts rng pnts' rng',
  stack_loop n n ps d pnts rng = Ok (pnts', rng') ->
  shape0 pnts' = shape0 pnts /\ shape1 pnts' = shape1 pnts /\
  stream rng' = stream rng /\ position rng' = position rng.
Proof.
  induction 1 as [|p ps Hp _ IH]; intros d pnts rng pnts' rng'.
  - cbn [stack_loop]. intros H. now inversion H.
  - cbn [stack_loop]. rewrite Nat.leb_refl.
    destruct (assign_block pnts 0 (shape0 p) d (d + shape1 p) p)
      as [pnts1|] eqn:E1; [|discriminate].
    cbn [rbind].
    destruct (choice p (n - shape0 p) rng) as [[extra rng1]|] eqn:Ec;
      [|discriminate].
    cbn [rbind].
    destruct (assign_block pnts1 (shape0 p) (shape0 pnts1) d (d + shape1 p)
                extra) as [pnts2|] eqn:E2; [|discriminate].
    cbn [rbind]. intros Hl.
    apply assign_block_shape in E1 as [E11 E10].
    apply assign_block_shape in E2 as [E21 E20].
    apply choice_rows in Ec as (_ & _ & Hs & Hpos).
    apply IH in Hl as (H0 & H1 & Hs' & Hpos').
    repeat split; try congruence. lia.
Qed.

Lemma py_max_constant n (l : list nat) mx :
  Forall (fun x => x = n) l -> py_max l = Ok mx -> mx = n.
Proof.
  intros Hall. destruct l as [|x l]; [discriminate|].
  rewrite py_max_list_max. intros H. inversion H; subst mx. clear H.
  inversion Hall as [|? ? Hx Hl]; subst. clear Hall.
  induction Hl as [|y l' -> _ IH]; simpl in *; lia.
Qed.

(** The objects of a stack or join, when [k] points are asked of each. *)
Lemma children_rows params k objs :
  Forall (fun o => forall rng p rng',
            get_multi_ensemble_eval_points params o rng (Some k) =
              Ok (p, rng') ->
            shape0 p = k /\ stream rng' = stream rng /\
            position rng' = position rng + draws k o) objs ->
  forall rng ps rng',
  children_points params objs rng (Some k) = Ok (ps, rng') ->
  Forall (fun p => shape0 p = k) ps /\ length ps = length objs /\
  stream rng' = stream rng /\
  position rng' = position rng + list_sum (map (draws k) objs).
Proof.
  unfold children_points.
  induction 1 as [|o objs Ho _ IH]; intros rng ps rng'; cbn [eval_children].
  - intros H. inversion H; subst. cbn. repeat split; [constructor|lia].
  - destruct (get_multi_ensemble_eval_points params o rng (Some k))
      as [[p rng1]|] eqn:Ep; [|discriminate].
    cbn [rbind].
    destruct (eval_children _ objs rng1) as [[ps' rng2]|] eqn:Eps;
      [|discriminate].
    cbn [rbind]. intros H. inversion H; subst. clear H.
    apply Ho in Ep as (Hp & Hs & Hpos).
    apply IH in Eps as (Hall & Hlen & Hs' & Hpos').
    repeat split.
    + now constructor.
    + cbn. now rewrite Hlen.
    + congruence.
    + change (map (draws k) (o :: objs))
        with ([draws k o] ++ map (draws k) objs).
      rewrite list_sum_app. simpl. lia.
Qed.

(** The loop of the stack keeps the number of rows of its target. *)
Lemma stack_loop_rows n mx ps :
  forall d pnts rng pnts' rng',
  stack_loop n mx ps d pnts rng = Ok (pnts', rng') ->
  shape0 pnts' = shape0 pnts.
Proof.
  induction ps as [|p ps IH]; intros d pnts rng pnts' rng'.
  - cbn [stack_loop]. intros H. now inversion H.
  - cbn [stack_loop]. destruct (mx <=? n).
    + destruct (assign_block pnts 0 (shape0 p) d (d + shape1 p) p)
        as [pnts1|] eqn:E1; [|discriminate].
      cbn [rbind].
      destruct (choice p (n - shape0 p) rng) as [[extra rng1]|];
        [|discriminate].
      cbn [rbind].
      destruct (assign_block pnts1 (shape0 p) (shape0 pnts1) d
                  (d + shape1 p) extra) as [pnts2|] eqn:E2; [|discriminate].
      cbn [rbind]. intros Hl. apply IH in Hl.
      apply assign_block_shape in E1 as [_ E1].
      apply assign_block_shape in E2 as [_ E2]. congruence.
    + destruct (choice p n rng) as [[sel rng1]|]; [|discriminate].
      cbn [rbind].
      destruct (assign_block pnts 0 (shape0 pnts) d (d + shape1 p) sel)
        as [pnts1|] eqn:E1; [|discriminate].
      cbn [rbind]. intros Hl. apply IH in Hl.
      apply assign_block_shape in E1 as [_ E1]. congruence.
Qed.

Lemma children_have_rows params k objs :
  Forall (fun o => forall rng p rng',
            get_multi_ensemble_eval_points params o rng (Some k) =
              Ok (p, rng') -> shape0 p = k) objs ->
  forall rng ps rng',
  children_points params objs rng (Some k) = Ok (ps, rng') ->
  Forall (fun p => shape0 p = k) ps.
Proof.
  unfold children_points.
  induction 1 as [|o objs Ho _ IH]; intros rng ps rng'; cbn [eval_children].
  - intros H. inversion H; subst. constructor.
  - destruct (get_multi_ensemble_eval_points params o rng (Some k))
      as [[p rng1]|] eqn:Ep; [|discriminate].
    cbn [rbind].
    destruct (eval_children _ objs rng1) as [[ps' rng2]|] eqn:Eps;
      [|discriminate].
    cbn [rbind]. intros H. inversion H; subst. clear H.
    constructor; [eapply Ho; eauto|eapply IH; eauto].
Qed.

(** When [k] points are asked for, [k] rows are returned. *)
Lemma rows_delivered params k mens :
  forall rng p rng',
  get_multi_ensemble_eval_points params mens rng (Some k) = Ok (p, rng') ->
  shape0 p = k.
Proof.
  induction mens as [ens d|objs d IH|objs d IH] using MultiEnsemble_tree_ind;
    intros rng p rng'.
  - cbn [get_multi_ensemble_eval_points].
    destruct (params !! ens) as [pnts|]; [|discriminate].
    intros H. apply choice_rows in H. tauto.
  - cbn [get_multi_ensemble_eval_points].
    fold (children_points params objs rng (Some k)).
    destruct (children_points params objs rng (Some k))
      as [[ps rng1]|] eqn:Ech; [|discriminate].
    cbn [rbind].
    apply (children_have_rows params k objs IH) in Ech.
    destruct (py_max (map shape0 ps)) as [mx|] eqn:Emx; [|discriminate].
    cbn [rbind default from_option id].
    apply (py_max_constant k) in Emx; [|now apply Forall_fmap]. subst mx.
    intros H. apply stack_loop_rows in H. rewrite H.
    unfold shape0, empty. cbn. apply repeat_length.
  - cbn [get_multi_ensemble_eval_points].
    destruct (eval_children _ objs rng) as [[ps rng1]|]; [|discriminate].
    cbn [rbind].
    destruct (py_max (map shape0 ps)) as [mx|]; [|discriminate].
    cbn [rbind default from_option id].
    destruct (concatenate0 ps) as [all|]; [|discriminate].
    cbn [rbind]. intros H. apply choice_rows in H. tauto.
Qed.

(** X10.  When a number of points is asked for, every result has exactly that
    many rows, whatever the tree and [model.params] are, and the generator
    has handed out that many numbers for every ensemble of the tree and
    for every join, in sequence. *)
Theorem asked_points_are_delivered params k mens :
  forall rng p rng',
  get_multi_ensemble_eval_points params mens rng (Some k) = Ok (p, rng') ->
  shape0 p = k /\ stream rng' = stream rng /\
  position rng' = position rng + draws k mens.
Proof.
  induction mens as [ens d|objs d IH|objs d IH] using MultiEnsemble_tree_ind;
    intros rng p rng'.
  - cbn [get_multi_ensemble_eval_points draws].
    destruct (params !! ens) as [pnts|]; [|discriminate].
    intros H. apply choice_rows in H. tauto.
  - cbn [get_multi_ensemble_eval_points draws].
    fold (children_points params objs rng (Some k)).
    destruct (children_points params objs rng (Some k))
      as [[ps rng1]|] eqn:Ech; [|discriminate].
    cbn [rbind].
    apply (children_rows params k objs IH) in Ech as (Hall & _ & Hs & Hpos).
    destruct (py_max (map shape0 ps)) as [mx|] eqn:Emx; [|discriminate].
    cbn [rbind default from_option id].
    apply (py_max_constant k) in Emx; [|now apply Forall_fmap]. subst mx.
    intros H. apply (stack_loop_shape k ps Hall) in H
      as (H0 & _ & Hs' & Hpos').
    repeat split; [|congruence|lia].
    rewrite H0. unfold shape0, empty. cbn. apply repeat_length.
  - cbn [get_multi_ensemble_eval_points draws].
    fold (children_points params objs rng (Some k)).
    destruct (children_points params objs rng (Some k))
      as [[ps rng1]|] eqn:Ech; [|discriminate].
    cbn [rbind].
    apply (children_rows params k objs IH) in Ech as (Hall & _ & Hs & Hpos).
    destruct (py_max (map shape0 ps)) as [mx|] eqn:Emx; [|discriminate].
    cbn [rbind default from_option id].
    destruct (concatenate0 ps) as [all|]; [|discriminate].
    cbn [rbind]. intros H. apply choice_rows in H as (H0 & _ & Hs' & Hpos').
    repeat split; [assumption|congruence|lia].
Qed.

Lemma asked_points_are_delivered_witness :
  shape0 {| shape1 := 1; rows := [[1]; [2]; [1]; [2]]%Q |} = 4 /\
  stream {| stream := fun k => k; position := 12 |} = stream example_rng /\
  position {| stream := fun k => k; position := 12 |} =
  position example_rng + draws 4 (OP_JOIN example_objs 1).
Proof.
  apply (asked_points_are_delivered example_params 4
           (OP_JOIN example_objs 1) example_rng).
  vm_compute. reflexivity.
Defined.

(** X11.  The comparison [n_eval_points >= max_n_pnts] of the stack loop always
    holds: without a requested number the maximum itself is used, and with
    one every object delivers exactly that number.  The branch that draws
    [n_eval_points] rows of an object afresh is never taken. *)
Theorem stack_never_subsamples params objs rng n ps rng1 mx :
  children_points params objs rng n = Ok (ps, rng1) ->
  py_max (map shape0 ps) = Ok mx ->
  (mx <=? default mx n) = true.
Proof.
  intros Hch Hmx. apply Nat.leb_le. destruct n as [k|]; [|cbn; lia].
  cbn [default from_option id].
  assert (Hall : Forall (fun o => forall rng p rng',
            get_multi_ensemble_eval_points params o rng (Some k) =
              Ok (p, rng') -> shape0 p = k) objs).
  { apply Forall_forall. intros o _. apply rows_delivered. }
  apply (children_have_rows params k objs Hall) in Hch.
  apply (py_max_constant k) in Hmx; [lia|now apply Forall_fmap].
Qed.

Lemma stack_never_subsamples_witness :
  (2 <=? default 2 (Some 2)) = true.
Proof.
  apply (stack_never_subsamples example_params example_objs example_rng
           (Some 2)
           [ {| shape1 := 1; rows := [[1]; [2]]%Q |};
             {| shape1 := 1; rows := [[5]; [3]]%Q |} ]
           {| stream := fun k => k; position := 4 |} 2).
  - vm_compute. reflexivity.
  - reflexivity.
Defined.

(** X12.  A join needs objects of one dimension: if the objects are well formed
    but one of them has another dimension than the first,
    [np.concatenate] refuses the arrays and the call ends in
    [ValueError], for every generator and number of points. *)
Theorem join_of_unequal_dimensions_raises params o objs d rng n :
  Forall (well_formed params) (o :: objs) ->
  Exists (fun o' => dimensions o' <> dimensions o) objs ->
  get_multi_ensemble_eval_points params (OP_JOIN (o :: objs) d) rng n =
  Err ValueError.
Proof.
  intros Hwf Hex.
  destruct (children_of_well_formed params n (o :: objs) Hwf rng)
    as (ps & rng1 & Hch & Hpo).
  cbn [get_multi_ensemble_eval_points].
  fold (children_points params (o :: objs) rng n). rewrite Hch.
  cbn [rbind].
  inversion Hpo as [|o0 p objs0 ps' Hp Hps]; subst.
  cbn [map]. rewrite py_max_list_max. cbn [rbind concatenate0].
  assert (Hf : forallb (fun q => shape1 q =? shape1 p) ps' = false).
  { clear Hch Hpo Hwf. destruct Hp as (_ & Hp1 & _).
    induction Hps as [|o' q objs' qs Hq Hqs IH].
    - inversion Hex.
    - cbn [forallb]. inversion Hex as [? ? Hne|? ? Hex']; subst.
      + destruct Hq as (_ & Hq1 & _).
        destruct (Nat.eqb_spec (shape1 q) (shape1 p)) as [E|_];
          [congruence|reflexivity].
      + rewrite (IH Hex'). apply andb_false_r. }
  now rewrite Hf.
Qed.

Lemma join_of_unequal_dimensions_raises_witness :
  get_multi_ensemble_eval_points mixed_params
    (OP_JOIN [OP_NONE 0 1; OP_NONE 1 2] 1) example_rng None =
  Err ValueError.
Proof.
  apply (join_of_unequal_dimensions_raises mixed_params (OP_NONE 0 1)
           [OP_NONE 1 2] 1 example_rng None).
  - repeat constructor.
    + eexists. split; [reflexivity|]. repeat constructor.
    + eexists. split; [reflexivity|]. repeat constructor.
  - left. cbn. lia.
Defined.

Lemma children_resolvable params n objs :
  Forall (fun o => forall rng r,
            get_multi_ensemble_eval_points params o rng n = Ok r ->
            resolvable params o) objs ->
  forall rng r, children_points params objs rng n = Ok r ->
  Forall (resolvable params) objs.
Proof.
  unfold children_points.
  induction 1 as [|o objs Ho _ IH]; intros rng r; [constructor|].
  cbn [eval_children].
  destruct (get_multi_ensemble_eval_points params o rng n)
    as [[p rng1]|] eqn:Ep; [|discriminate].
  cbn [rbind].
  destruct (eval_children _ objs rng1) as [[ps rng2]|] eqn:Eps;
    [|discriminate].
  intros _. constructor; [eapply Ho; eauto|eapply IH; eauto].
Qed.

(** X13.  The function returns only for a tree whose ensembles are all keys of
    [model.params] and whose stacks and joins all have an object: a
    missing key ([KeyError]) or an empty list of objects ([max] of an
    empty list) anywhere in the tree makes the whole call fail. *)
Theorem returns_only_when_resolvable params mens rng n r :
  get_multi_ensemble_eval_points params mens rng n = Ok r ->
  resolvable params mens.
Proof.
  revert rng r.
  induction mens as [ens d|objs d IH|objs d IH] using MultiEnsemble_tree_ind;
    intros rng r.
  - cbn [get_multi_ensemble_eval_points resolvable].
    destruct (params !! ens); [eauto|discriminate].
  - cbn [get_multi_ensemble_eval_points resolvable].
    fold (children_points params objs rng n).
    destruct (children_points params objs rng n) as [[ps rng1]|] eqn:Ech;
      [|discriminate].
    cbn [rbind]. intros H. split.
    + intros ->. cbn in Ech. inversion Ech; subst. discriminate.
    + apply resolvable_node. eapply children_resolvable; eauto.
  - cbn [get_multi_ensemble_eval_points resolvable].
    fold (children_points params objs rng n).
    destruct (children_points params objs rng n) as [[ps rng1]|] eqn:Ech;
      [|discriminate].
    cbn [rbind]. intros H. split.
    + intros ->. cbn in Ech. inversion Ech; subst. discriminate.
    + apply resolvable_node. eapply children_resolvable; eauto.
Qed.

Lemma returns_only_when_resolvable_witness :
  resolvable example_params (OP_STACK example_objs 2).
Proof.
  apply (returns_only_when_resolvable example_params
           (OP_STACK example_objs 2) example_rng None
           ({| shape1 := 2; rows := [[1; 3]; [2; 4]; [1; 5]]%Q |},
            {| stream := fun k => k; position := 1 |})).
  vm_compute. reflexivity.
Defined.

End EvalPointsMore.

(** ** More on [remove_bias_current] and [build_solver] *)

Module BuilderMore.
Import EvalPoints.
Import Builder.
Import BuilderFacts.
Local Open Scope nat_scope.

(** *** [remove_bias_current] *)

Lemma remove_copy_none src dst ops :
  remove_copy src dst ops = None <-> Copy src dst ∉ ops.
Proof.
  induction ops as [|op ops IH].
  - cbn. split; [intros _ H; inversion H|reflexivity].
  - rewrite not_elem_of_cons.
    destruct op as [s d|d|]; cbn [remove_copy].
    + destruct (Nat.eqb_spec s src) as [->|Hs];
        [destruct (Nat.eqb_spec d dst) as [->|Hd]|]; cbn [andb].
      * split; [discriminate|]. intros [H _]. now contradiction H.
      * rewrite fmap_None, IH. split; [|tauto].
        intros H. split; [congruence|exact H].
      * rewrite fmap_None, IH. split; [|tauto].
        intros H. split; [congruence|exact H].
    + rewrite fmap_None, IH. split; [|tauto].
      intros H. split; [discriminate|exact H].
    + rewrite fmap_None, IH. split; [|tauto].
      intros H. split; [discriminate|exact H].
Qed.

Lemma remove_copy_some src dst ops ops' :
  remove_copy src dst ops = Some ops' ->
  exists l1 l2,
    ops = l1 ++ Copy src dst :: l2 /\ (Copy src dst ∉ l1) /\ ops' = l1 ++ l2.
Proof.
  revert ops'. induction ops as [|op ops IH]; intros ops'; [discriminate|].
  assert (Hrec : cons op <$> remove_copy src dst ops = Some ops' ->
                 op <> Copy src dst ->
                 exists l1 l2,
                   op :: ops = l1 ++ Copy src dst :: l2 /\
                   (Copy src dst ∉ l1) /\ ops' = l1 ++ l2).
  { intros H Hne. apply fmap_Some in H as (t & Ht & ->).
    destruct (IH t Ht) as (l1 & l2 & -> & Hn & ->).
    exists (op :: l1), l2. repeat split.
    rewrite not_elem_of_cons. split; [congruence|exact Hn]. }
  destruct op as [s d|d|]; cbn [remove_copy].
  - destruct (Nat.eqb_spec s src) as [->|Hs];
      [destruct (Nat.eqb_spec d dst) as [->|Hd]|]; cbn [andb].
    + intros H. inversion H; subst. exists [], ops'. repeat split.
      apply not_elem_of_nil.
    + intros H. apply Hrec; [exact H|congruence].
    + intros H. apply Hrec; [exact H|congruence].
  - intros H. apply Hrec; [exact H|discriminate].
  - intros H. apply Hrec; [exact H|discriminate].
Qed.

(** X14.  [remove_bias_current] on an ensemble whose signals are known: without
    a [Copy] from the bias to the input signal the model is left as it is
    and [False] is returned; otherwise exactly the first such [Copy] is
    deleted, all other operators keep their order, a [Reset] of the input
    signal is appended, and [True] is returned. *)
Theorem remove_bias_current_spec m ens sb si :
  sig m !! ens_id ens = Some (sb, si) ->
  (Copy sb si ∉ operators m -> remove_bias_current m ens = (Ok false, m)) /\
  (Copy sb si ∈ operators m ->
   exists l1 l2,
     operators m = l1 ++ Copy sb si :: l2 /\
     (Copy sb si ∉ l1) /\
     remove_bias_current m ens =
     (Ok true, set_operators (l1 ++ l2 ++ [Reset si]) m)).
Proof.
  intros Hsig. unfold remove_bias_current. rewrite Hsig. split.
  - intros Hn. apply remove_copy_none in Hn. now rewrite Hn.
  - intros Hin.
    destruct (remove_copy sb si (operators m)) as [ops'|] eqn:E.
    + destruct (remove_copy_some _ _ _ _ E) as (l1 & l2 & Hops & Hn & ->).
      exists l1, l2. repeat split; try assumption.
      now rewrite <- app_assoc.
    + apply remove_copy_none in E. contradiction.
Qed.

Lemma remove_bias_current_spec_witness :
  exists l1 l2,
    operators biased_model = l1 ++ Copy 10 11 :: l2 /\
    (Copy 10 11 ∉ l1) /\
    remove_bias_current biased_model ens_c =
    (Ok true, set_operators (l1 ++ l2 ++ [Reset 11]) biased_model).
Proof.
  apply (remove_bias_current_spec biased_model ens_c 10 11).
  - reflexivity.
  - cbn. apply list_elem_of_In. cbn. tauto.
Defined.

(** *** [build_solver] *)

Lemma ranges_lookup start ws i w :
  ws !! i = Some w ->
  ranges start ws !! i =
  Some (start + list_sum (take i ws), start + list_sum (take i ws) + w).
Proof.
  revert start i. induction ws as [|x ws IH]; intros start [|i];
    try discriminate.
  - intros H. inversion H. cbn. now rewrite Nat.add_0_r.
  - intros H. cbn [ranges]. change ((x :: ws) !! S i) with (ws !! i) in H.
    change (((start, start + x) :: ranges (start + x) ws) !! S i)
      with (ranges (start + x) ws !! i).
    rewrite (IH (start + x) i H). cbn [take].
    change (list_sum (x :: take i ws)) with (x + list_sum (take i ws)).
    rewrite !Nat.add_assoc. reflexivity.
Qed.

Lemma ranges_length start ws : length (ranges start ws) = length ws.
Proof.
  revert start. induction ws as [|x ws IH]; intros start; cbn; [|rewrite IH];
    reflexivity.
Qed.

Section Requests.

Variable ga : BuiltEnsemble -> Ensemble -> array2 -> option array2.
Variable gt : Connection -> array2 -> option array2.
Variable sv :
  array2 -> array2 -> list bool * list bool -> RandomState ->
  option (array2 * array2).

(** The ranges the loop over [conn.pre] collects are consecutive. *)
Lemma gather_maps m conn pres :
  forall g0 g,
  gather ga m conn pres g0 = Ok g ->
  dim_map g = dim_map g0 ++ ranges (d1 g0) (map size_out pres) /\
  neurons_map g =
    neurons_map g0 ++ ranges (n1 g0) (map neurons_size_out pres).
Proof.
  induction pres as [|e pres IH]; intros g0 g; cbn [gather].
  - intros H. inversion H; subst. cbn. now rewrite !app_nil_r.
  - cbv zeta.
    destruct (match conn_eval_points conn with
              | Some ep => _ | None => _ end) as [ep|]; [|discriminate].
    cbn [rbind]. destruct (built_ensemble m e) as [b|]; [|discriminate].
    cbn [rbind]. destruct (ga b e ep) as [act|]; [|discriminate].
    cbn [rbind external]. intros H. apply IH in H as [Hd Hn].
    cbn [dim_map neurons_map d1 n1] in Hd, Hn.
    rewrite Hd, Hn, <- !app_assoc. cbn [map ranges app]. now split.
Qed.

Lemma solve_and_store_maps conn rng m bc :
  fst (solve_and_store ga gt sv conn rng m) = Ok bc ->
  pre_idx_dim_map bc = ranges 0 (map size_out (pre conn)) /\
  pre_idx_neurons_map bc = ranges 0 (map neurons_size_out (pre conn)).
Proof.
  unfold solve_and_store, bind, get_model, lift, raise.
  destruct (gather ga m conn (pre conn) nothing_gathered) as [g|] eqn:Eg;
    [|discriminate].
  destruct (last_eval_points g) as [ep|]; [|discriminate].
  rewrite counts_differ_never.
  destruct (solver_inputs gt m conn g) as [[[act tc] mask]|]; [|discriminate].
  destruct (sv act tc mask rng) as [[WE WI]|]; [|discriminate].
  cbn. intros H. inversion H; subst bc. cbn.
  apply gather_maps in Eg. exact Eg.
Qed.

(** What a build leaves of the model besides the entry of the
    connection. *)
Lemma solve_and_store_frame conn rng m :
  let m' := snd (solve_and_store ga gt sv conn rng m) in
  sig m' = sig m /\ operators m' = operators m /\
  (exists new, memory m' = memory m ++ new) /\
  forall k, k <> conn_id conn -> params m' !! k = params m !! k.
Proof.
  assert (Hsame : sig m = sig m /\ operators m = operators m /\
            (exists new, memory m = memory m ++ new) /\
            forall k, k <> conn_id conn -> params m !! k = params m !! k).
  { repeat split. exists []. now rewrite app_nil_r. }
  unfold solve_and_store, bind, get_model, lift, raise.
  destruct (gather ga m conn (pre conn) nothing_gathered) as [g|];
    [|exact Hsame].
  destruct (last_eval_points g) as [ep|]; [|exact Hsame].
  rewrite counts_differ_never.
  destruct (solver_inputs gt m conn g) as [[[act tc] mask]|]; [|exact Hsame].
  destruct (sv act tc mask rng) as [[WE WI]|]; [|exact Hsame].
  cbn. repeat split.
  - exists [WE; WI; neg WI]. now rewrite <- !app_assoc.
  - intros k Hk. now rewrite lookup_insert_ne.
Qed.

Lemma remove_bias_current_sig m e :
  sig (snd (remove_bias_current m e)) = sig m.
Proof.
  unfold remove_bias_current.
  destruct (sig m !! ens_id e) as [[sb si]|]; [|reflexivity].
  destruct (remove_copy sb si (operators m)); reflexivity.
Qed.

Lemma build_frame conn rng m :
  let m' := snd (build ga gt sv conn rng m) in
  sig m' = sig m /\
  (decode_bias conn = false -> operators m' = operators m) /\
  (exists new, memory m' = memory m ++ new) /\
  forall k, k <> conn_id conn -> params m' !! k = params m !! k.
Proof.
  cbv zeta. rewrite build_unfold. cbv zeta.
  set (m0 := set_params <[conn_id conn:=BuiltConn new_built_connection]> m).
  assert (H0 : forall k, k <> conn_id conn -> params m0 !! k = params m !! k).
  { intros k Hk. subst m0. cbn. now rewrite lookup_insert_ne. }
  destruct (decode_bias conn).
  - pose proof (remove_bias_current_sig m0 (post_obj conn)) as Hsig.
    destruct (remove_bias_current_frame m0 (post_obj conn)) as (Hp & Hmem & _).
    destruct (remove_bias_current m0 (post_obj conn)) as [[b|e] m1];
      cbn [fst snd] in Hp, Hmem, Hsig |- *.
    + destruct (solve_and_store_frame conn rng m1) as (Hs & _ & Hm & Hk).
      repeat split.
      * now rewrite Hs, Hsig.
      * discriminate.
      * destruct Hm as [new Hm]. exists new. rewrite Hm, Hmem. reflexivity.
      * intros k Hne. rewrite (Hk k Hne), Hp. now apply H0.
    + repeat split.
      * exact Hsig.
      * discriminate.
      * exists []. now rewrite app_nil_r, Hmem.
      * intros k Hne. rewrite Hp. now apply H0.
  - destruct (solve_and_store_frame conn rng m0) as (Hs & Ho & Hm & Hk).
    repeat split; try assumption.
    + intros _. exact Ho.
    + intros k Hne. rewrite (Hk k Hne). now apply H0.
Qed.

Lemma finish_full_frame w b m :
  let m' := snd (finish w b m) in
  sig m' = sig m /\ operators m' = operators m /\
  (exists new, memory m' = memory m ++ new) /\ params m' = params m.
Proof.
  assert (Hsame : sig m = sig m /\ operators m = operators m /\
            (exists new, memory m = memory m ++ new) /\ params m = params m).
  { repeat split. exists []. now rewrite app_nil_r. }
  unfold finish.
  destruct (pre_obj (connection w) !! pre_idx w); [|exact Hsame].
  destruct b as [be|bc]; [exact Hsame|].
  destruct (pre_idx_neurons_map bc !! pre_idx w) as [[n0 n1]|];
    [|exact Hsame].
  destruct (weights bc (synapse_type_of w)) as [a|]; [|exact Hsame].
  destruct (read (memory m) (Transpose (RowSlice a n0 n1))) as [c|];
    [|exact Hsame].
  cbn. repeat split. now exists [c].
Qed.

(** X15.  What a request never touches, whether it builds, reads the cache or
    raises: the entries of [model.params] of other objects, the signals,
    and the contents of the arrays that exist (new arrays are appended);
    the operators change only in a first request of a connection that
    decodes the bias. *)
Theorem build_solver_frame w rng m :
  let m' := snd (build_solver ga gt sv w rng m) in
  (forall k, k <> conn_id (connection w) ->
     params m' !! k = params m !! k) /\
  (exists new, memory m' = memory m ++ new) /\
  sig m' = sig m /\
  (is_Some (params m !! conn_id (connection w)) \/
   decode_bias (connection w) = false -> operators m' = operators m).
Proof.
  cbv zeta. destruct (params m !! conn_id (connection w)) as [b|] eqn:Eb.
  - rewrite (build_solver_cached ga gt sv w rng m b Eb).
    destruct (finish_full_frame w b m) as (Hs & Ho & Hm & Hp).
    repeat split; try assumption.
    + intros k _. now rewrite Hp.
    + intros _. exact Ho.
  - rewrite (build_solver_first ga gt sv w rng m Eb).
    destruct (build_frame (connection w) rng m) as (Hs & Ho & Hm & Hp).
    destruct (build ga gt sv (connection w) rng m) as [[bc|e] m1];
      cbn [fst snd] in Hs, Ho, Hm, Hp |- *.
    + destruct (finish_full_frame w (BuiltConn bc) m1)
        as (Hs' & Ho' & (new' & Hm') & Hp').
      destruct Hm as (new & Hm).
      repeat split.
      * intros k Hk. rewrite Hp'. now apply Hp.
      * exists (new ++ new'). now rewrite Hm', Hm, app_assoc.
      * now rewrite Hs'.
      * intros [[? H]|H]; [discriminate|]. rewrite Ho'. now apply Ho.
    + repeat split; try assumption.
      intros [[? H]|H]; [discriminate|]. now apply Ho.
Qed.

Lemma build_failed conn rng m e :
  fst (build ga gt sv conn rng m) = Err e ->
  params (snd (build ga gt sv conn rng m)) =
    <[conn_id conn := BuiltConn new_built_connection]> (params m) /\
  solves (snd (build ga gt sv conn rng m)) = solves m /\
  memory (snd (build ga gt sv conn rng m)) = memory m.
Proof.
  rewrite build_unfold. cbv zeta.
  set (m0 := set_params <[conn_id conn:=BuiltConn new_built_connection]> m).
  assert (Hstep : forall m1,
    fst (solve_and_store ga gt sv conn rng m1) = Err e ->
    snd (solve_and_store ga gt sv conn rng m1) = m1).
  { intros m1 H. pose proof (solve_and_store_spec ga gt sv conn rng m1) as Hsp.
    cbv zeta in Hsp. now rewrite H in Hsp. }
  destruct (decode_bias conn).
  - destruct (remove_bias_current_frame m0 (post_obj conn)) as (Hp & Hmem & Hs).
    destruct (remove_bias_current m0 (post_obj conn)) as [[b|e'] m1];
      cbn [fst snd] in Hp, Hmem, Hs |- *.
    + intros H. rewrite (Hstep m1 H), Hp, Hmem, Hs. now repeat split.
    + intros _. rewrite Hp, Hmem, Hs. now repeat split.
  - intros H. rewrite (Hstep m0 H). now repeat split.
Qed.

(** X16.  A build that raises is never tried again.  The empty
    [BuiltConnection] that was put into [model.params] before the build
    stays there; so the request that started the build raises the
    exception of the build, and every later request for the connection
    finds the empty entry and stops with [IndexError] at its empty
    [pre_idx_neurons_map], without building and without changing the
    model. *)
Theorem failed_build_is_not_retried conn rng m e :
  params m !! conn_id conn = None ->
  fst (build ga gt sv conn rng m) = Err e ->
  let m1 := snd (build ga gt sv conn rng m) in
  params m1 !! conn_id conn = Some (BuiltConn new_built_connection) /\
  solves m1 = solves m /\
  forall w, connection w = conn ->
    build_solver ga gt sv w rng m = (Err e, m1) /\
    forall rng', build_solver ga gt sv w rng' m1 = (Err IndexError, m1).
Proof.
  intros Hnone Hfail. cbv zeta.
  destruct (build_failed conn rng m e Hfail) as (Hp & Hs & _).
  assert (Hin : params (snd (build ga gt sv conn rng m)) !! conn_id conn =
                Some (BuiltConn new_built_connection)).
  { rewrite Hp. apply lookup_insert_eq. }
  split; [exact Hin|]. split; [exact Hs|].
  intros w <-. split.
  - rewrite (build_solver_first ga gt sv w rng m Hnone).
    destruct (build ga gt sv (connection w) rng m) as [[bc|e'] m1];
      cbn [fst snd] in *; congruence.
  - intros rng'.
    rewrite (build_solver_cached ga gt sv w rng' _ _ Hin).
    unfold finish.
    destruct (pre_obj (connection w) !! pre_idx w); reflexivity.
Qed.

(** X17.  The index maps a build stores are the consecutive ranges of the pre
    ensembles: entry [i] of [pre_idx_dim_map] starts at the summed
    [size_out] of the ensembles before [i] and is [size_out] wide, and
    entry [i] of [pre_idx_neurons_map] does the same with
    [neurons.size_out]. *)
Theorem index_maps_are_consecutive w rng m W m' :
  params m !! conn_id (connection w) = None ->
  build_solver ga gt sv w rng m = (Ok W, m') ->
  exists bc,
    params m' !! conn_id (connection w) = Some (BuiltConn bc) /\
    length (pre_idx_dim_map bc) = length (pre (connection w)) /\
    length (pre_idx_neurons_map bc) = length (pre (connection w)) /\
    forall i e, pre (connection w) !! i = Some e ->
      let d0 := list_sum (map size_out (take i (pre (connection w)))) in
      let n0 := list_sum (map neurons_size_out
                            (take i (pre (connection w)))) in
      pre_idx_dim_map bc !! i = Some (d0, d0 + size_out e) /\
      pre_idx_neurons_map bc !! i = Some (n0, n0 + neurons_size_out e).
Proof.
  intros Hnone Hb. rewrite (build_solver_first ga gt sv w rng m Hnone) in Hb.
  pose proof (build_spec ga gt sv (connection w) rng m) as Hsp.
  cbv zeta in Hsp.
  assert (Hmaps : forall bc,
            fst (build ga gt sv (connection w) rng m) = Ok bc ->
            pre_idx_dim_map bc = ranges 0 (map size_out (pre (connection w)))
            /\ pre_idx_neurons_map bc =
               ranges 0 (map neurons_size_out (pre (connection w)))).
  { intros bc. rewrite build_unfold. cbv zeta.
    destruct (decode_bias (connection w)).
    - destruct (remove_bias_current _ (post_obj (connection w)))
        as [[b|e] m1]; [|discriminate].
      apply solve_and_store_maps.
    - apply solve_and_store_maps. }
  destruct (build ga gt sv (connection w) rng m) as [[bc|e] m1];
    [|discriminate].
  cbn [fst snd] in Hsp. destruct Hsp as (_ & act & tc & mask & WE & WI & Hsp).
  destruct Hsp as (_ & _ & _ & _ & _ & Hpar).
  destruct (Hmaps bc eq_refl) as (Hd & Hn).
  destruct (finish_frame w (BuiltConn bc) m1) as (Hp & _).
  rewrite Hb in Hp. cbn [snd] in Hp.
  exists bc. split; [now rewrite Hp|].
  rewrite Hd, Hn, !ranges_length, !length_map.
  split; [reflexivity|]. split; [reflexivity|].
  intros i e He. cbv zeta. rewrite <- !firstn_map.
  split.
  - rewrite (ranges_lookup 0 (map size_out (pre (connection w))) i
               (size_out e)); [reflexivity|].
    now rewrite list_lookup_fmap, He.
  - rewrite (ranges_lookup 0 (map neurons_size_out (pre (connection w))) i
               (neurons_size_out e)); [reflexivity|].
    now rewrite list_lookup_fmap, He.
Qed.

(** X18.  Without pre ensembles the loop never binds [eval_points]: the first
    request stops with [UnboundLocalError] at line 157 and the solver is
    not called. *)
Theorem no_pre_raises_unbound_local w rng m :
  params m !! conn_id (connection w) = None ->
  pre (connection w) = [] ->
  (decode_bias (connection w) = true ->
   is_Some (sig m !! ens_id (post_obj (connection w)))) ->
  fst (build_solver ga gt sv w rng m) = Err (UnboundLocalError "eval_points")
  /\ solves (snd (build_solver ga gt sv w rng m)) = solves m.
Proof.
  intros Hnone Hpre Hsig.
  rewrite (build_solver_first ga gt sv w rng m Hnone).
  assert (Hst : forall m1,
            solve_and_store ga gt sv (connection w) rng m1 =
            (Err (UnboundLocalError "eval_points"), m1)).
  { intros m1. unfold solve_and_store, bind, get_model, lift, raise.
    rewrite Hpre. reflexivity. }
  rewrite build_unfold. cbv zeta.
  destruct (decode_bias (connection w)).
  - destruct (Hsig eq_refl) as [[sb si] Hs].
    destruct (remove_bias_current_frame
                (set_params
                   <[conn_id (connection w):=BuiltConn new_built_connection]>
                   m) (post_obj (connection w))) as (_ & _ & Hsol).
    unfold remove_bias_current in *. cbn [sig set_params] in *.
    rewrite Hs in *.
    destruct (remove_copy sb si _); rewrite Hst; cbn [fst snd] in *;
      split; [reflexivity|exact Hsol|reflexivity|exact Hsol].
  - rewrite Hst. split; reflexivity.
Qed.

(** X19.  A connection whose transform is not [Dense] is never solved: its
    first request raises, and the solver has not been called. *)
Theorem non_dense_is_never_solved w rng m :
  params m !! conn_id (connection w) = None ->
  transform (connection w) = NotDense ->
  (exists e, fst (build_solver ga gt sv w rng m) = Err e) /\
  solves (snd (build_solver ga gt sv w rng m)) = solves m.
Proof.
  intros Hnone Hnd.
  rewrite (build_solver_first ga gt sv w rng m Hnone).
  assert (Hin : forall m1 g, exists e,
            solver_inputs gt m1 (connection w) g = Err e).
  { intros m1 g. unfold solver_inputs. rewrite Hnd.
    repeat match goal with
           | |- exists e, rbind ?x _ = Err e =>
               destruct x; cbn [rbind]; [|eauto]
           end. eauto. }
  assert (Hst : forall m1, exists e,
            fst (solve_and_store ga gt sv (connection w) rng m1) = Err e).
  { intros m1. unfold solve_and_store, bind, get_model, lift, raise.
    destruct (gather ga m1 (connection w) (pre (connection w))
                nothing_gathered) as [g|]; [|eauto].
    destruct (last_eval_points g) as [ep|]; [|eauto].
    rewrite counts_differ_never.
    destruct (Hin m1 g) as [e ->]. eauto. }
  assert (Hb : exists e, fst (build ga gt sv (connection w) rng m) = Err e).
  { rewrite build_unfold. cbv zeta.
    destruct (decode_bias (connection w)); [|apply Hst].
    destruct (remove_bias_current _ (post_obj (connection w)))
      as [[b|e] m1]; [apply Hst|eauto]. }
  destruct Hb as [e He].
  destruct (build_failed (connection w) rng m e He) as (_ & Hs & _).
  destruct (build ga gt sv (connection w) rng m) as [[bc|e'] m1];
    cbn [fst snd] in *; [discriminate|].
  split; [eauto|exact Hs].
Qed.

Lemma remove_copy_first src dst l1 l2 :
  Copy src dst ∉ l1 ->
  remove_copy src dst (l1 ++ Copy src dst :: l2) = Some (l1 ++ l2).
Proof.
  induction l1 as [|op l1 IH]; intros Hn.
  - cbn. now rewrite !Nat.eqb_refl.
  - apply not_elem_of_cons in Hn as [Hne Hn]. specialize (IH Hn).
    destruct op as [s d|d|]; cbn [app remove_copy]; rewrite IH;
      try reflexivity.
    destruct (Nat.eqb_spec s src) as [->|Hs];
      [destruct (Nat.eqb_spec d dst) as [->|Hd]|]; cbn [andb];
      try reflexivity.
    now contradiction Hne.
Qed.

(** X20.  A first request for a connection that decodes the bias rewrites the
    operators before anything is gathered or solved: the first [Copy] from
    the bias signal of the post ensemble to its input signal is replaced
    by a [Reset] at the end of the list, whether the build then returns or
    raises. *)
Theorem bias_copy_is_replaced_first w rng m sb si l1 l2 :
  params m !! conn_id (connection w) = None ->
  decode_bias (connection w) = true ->
  sig m !! ens_id (post_obj (connection w)) = Some (sb, si) ->
  operators m = l1 ++ Copy sb si :: l2 ->
  Copy sb si ∉ l1 ->
  operators (snd (build_solver ga gt sv w rng m)) = l1 ++ l2 ++ [Reset si].
Proof.
  intros Hnone Hdb Hsig Hops Hn.
  rewrite (build_solver_first ga gt sv w rng m Hnone).
  rewrite build_unfold. cbv zeta. rewrite Hdb.
  unfold remove_bias_current. cbn [sig operators set_params].
  rewrite Hsig, Hops, (remove_copy_first sb si l1 l2 Hn).
  set (m1 := set_operators _ _).
  destruct (solve_and_store_frame (connection w) rng m1) as (_ & Ho & _).
  destruct (solve_and_store ga gt sv (connection w) rng m1) as [[bc|e] m2];
    cbn [fst snd] in Ho |- *.
  - destruct (finish_full_frame w (BuiltConn bc) m2) as (_ & Ho' & _).
    rewrite Ho', Ho. subst m1. cbn. now rewrite <- app_assoc.
  - rewrite Ho. subst m1. cbn. now rewrite <- app_assoc.
Qed.

(** With [conn.eval_points] given, every pre ensemble gets its columns
    of them. *)
Lemma gather_slices m conn ep pres :
  conn_eval_points conn = Some ep ->
  forall g0 g,
  gather ga m conn pres g0 = Ok g ->
  eval_points_list g =
  eval_points_list g0 ++
  map (fun r => slice_columns ep (fst r) (snd r))
    (ranges (d1 g0) (map size_out pres)).
Proof.
  intros Hep. induction pres as [|e pres IH]; intros g0 g; cbn [gather].
  - intros H. inversion H; subst. cbn. now rewrite app_nil_r.
  - cbv zeta. rewrite Hep. cbn [rbind].
    destruct (built_ensemble m e) as [b|]; [|discriminate].
    cbn [rbind]. destruct (ga b e _) as [act|]; [|discriminate].
    cbn [rbind external]. intros H. apply IH in H.
    cbn [eval_points_list d1] in H.
    rewrite H, <- app_assoc. reflexivity.
Qed.

Lemma zip_with_app_maps {A B} (f g : A -> list B) (l : list A) :
  zip_with app (map f l) (map g l) = map (fun x => f x ++ g x) l.
Proof.
  induction l as [|x l IH]; [reflexivity|]. cbn. now rewrite IH.
Qed.

Lemma take_sum_drop {A} (a b : nat) (l : list A) :
  take (a + b) l = take a l ++ take b (drop a l).
Proof.
  revert l. induction a as [|a IH]; intros [|x l]; cbn;
    rewrite ?take_nil; try reflexivity.
  now rewrite IH.
Qed.

(** Column slices over consecutive ranges, put side by side again. *)
Lemma concatenate_slices ep ws :
  forall start,
  fold_right (zip_with app) (map (fun _ => []) (rows ep))
    (map rows (map (fun r => slice_columns ep (fst r) (snd r))
                 (ranges start ws))) =
  map (fun r => take (list_sum ws) (drop start r)) (rows ep).
Proof.
  induction ws as [|w ws IH]; intros start.
  - reflexivity.
  - cbn [ranges map fold_right fst snd]. rewrite IH.
    cbn [slice_columns rows]. rewrite zip_with_app_maps.
    apply map_ext. intros r.
    change (list_sum (w :: ws)) with (w + list_sum ws).
    rewrite take_sum_drop, drop_drop.
    replace (start + w - start) with w by lia. reflexivity.
Qed.

Lemma slices_widths ep ws :
  forall start,
  start + list_sum ws <= shape1 ep ->
  map shape1 (map (fun r => slice_columns ep (fst r) (snd r))
                (ranges start ws)) = ws.
Proof.
  induction ws as [|w ws IH]; intros start Hle; [reflexivity|].
  change (list_sum (w :: ws)) with (w + list_sum ws) in Hle.
  cbn [ranges map fst snd slice_columns shape1].
  rewrite IH by lia. f_equal. lia.
Qed.

(** X22.  Evaluation points given with the connection are split by
    columns among the pre ensembles and put together again unchanged:
    when the columns of [conn.eval_points] are as many as the summed
    [size_out] of the pre ensembles, the matrix that
    [np.concatenate(eval_points_list, axis=1)] yields after the loop is
    [conn.eval_points] itself, and no [ValueError] for differing numbers
    of points can arise. *)
Theorem given_points_are_reassembled m conn ep g :
  conn_eval_points conn = Some ep ->
  well_shaped ep ->
  pre conn <> [] ->
  list_sum (map size_out (pre conn)) = shape1 ep ->
  gather ga m conn (pre conn) nothing_gathered = Ok g ->
  concatenate1 (eval_points_list g) = Ok ep.
Proof.
  intros Hep Hw Hne Hsum Hg.
  apply (gather_slices m conn ep (pre conn) Hep) in Hg.
  cbn [nothing_gathered eval_points_list d1 app] in Hg.
  pose proof (concatenate_slices ep (map size_out (pre conn)) 0) as Hrows.
  pose proof (slices_widths ep (map size_out (pre conn)) 0) as Hwid.
  rewrite Hsum in Hwid, Hrows. specialize (Hwid (Nat.le_refl _)).
  destruct (pre conn) as [|e pres]; [contradiction|]. clear Hne.
  cbn [map ranges fst snd] in Hrows, Hwid, Hg.
  remember (slice_columns ep 0 (0 + size_out e)) as p eqn:Ep.
  remember (map (fun r => slice_columns ep (fst r) (snd r))
              (ranges (0 + size_out e) (map size_out pres))) as ps eqn:Eps.
  rewrite Hg. unfold concatenate1.
  assert (Hall : forallb (fun q => shape0 q =? shape0 p) ps = true).
  { apply forallb_forall. intros q Hq. subst ps p.
    apply in_map_iff in Hq as (r & <- & _).
    unfold shape0. cbn. rewrite !length_map. apply Nat.eqb_refl. }
  rewrite Hall.
  assert (Hbase : map (fun _ : list Q => @nil Q) (rows p) =
                  map (fun _ => []) (rows ep)).
  { subst p. cbn [slice_columns rows]. now rewrite map_map. }
  rewrite Hbase. cbn [map]. rewrite Hrows.
  assert (Hs1 : list_sum (shape1 p :: map shape1 ps) = shape1 ep).
  { rewrite Hwid. exact Hsum. }
  rewrite Hs1. clear Hsum Hs1 Hwid Hrows Hbase Hall Hg Ep Eps.
  destruct ep as [D rs]. cbn [shape1 rows] in *. do 2 f_equal.
  unfold well_shaped in Hw. cbn [shape1 rows] in Hw.
  clear -Hw. induction Hw as [|r rs Hr _ IH]; [reflexivity|].
  cbn [map]. rewrite IH. f_equal. cbn [drop]. apply take_ge. lia.
Qed.

End Requests.

Lemma given_points_are_reassembled_witness :
  exists g,
    gather example_activities matching_model
      {| conn_id := 7; pre := [ens_a; ens_b]; pre_obj := [ens_a; ens_b];
         post_obj := ens_c;
         conn_eval_points :=
           Some {| shape1 := 2; rows := [[1; 2]; [3; 4]; [5; 6]]%Q |};
         decode_bias := false; transform := NotDense |}
      [ens_a; ens_b] nothing_gathered = Ok g /\
    concatenate1 (eval_points_list g) =
    Ok {| shape1 := 2; rows := [[1; 2]; [3; 4]; [5; 6]]%Q |}.
Proof.
  eexists. split; [vm_compute; reflexivity|].
  apply (given_points_are_reassembled example_activities matching_model
           {| conn_id := 7; pre := [ens_a; ens_b]; pre_obj := [ens_a; ens_b];
              post_obj := ens_c;
              conn_eval_points :=
                Some {| shape1 := 2; rows := [[1; 2]; [3; 4]; [5; 6]]%Q |};
              decode_bias := false; transform := NotDense |}).
  - reflexivity.
  - repeat constructor.
  - discriminate.
  - reflexivity.
  - vm_compute. reflexivity.
Defined.

Lemma bias_copy_is_replaced_first_witness :
  operators
    (snd (build_solver example_activities example_targets example_solver
            {| connection :=
                 {| conn_id := 7; pre := []; pre_obj := []; post_obj := ens_c;
                    conn_eval_points := None; decode_bias := true;
                    transform := NotDense |};
               pre_idx := 0; synapse_type_of := Excitatory |}
            no_rng biased_model)) =
  [OtherOperator] ++ [Copy 11 10; Copy 10 11] ++ [Reset 11].
Proof.
  apply (bias_copy_is_replaced_first example_activities example_targets
           example_solver
           {| connection :=
                {| conn_id := 7; pre := []; pre_obj := []; post_obj := ens_c;
                   conn_eval_points := None; decode_bias := true;
                   transform := NotDense |};
              pre_idx := 0; synapse_type_of := Excitatory |}
           no_rng biased_model 10 11 [OtherOperator] [Copy 11 10; Copy 10 11]).
  - reflexivity.
  - reflexivity.
  - reflexivity.
  - reflexivity.
  - intros H. apply list_elem_of_In in H. cbn in H.
    destruct H as [H|[]]; discriminate.
Defined.

Lemma failed_build_is_not_retried_witness :
  let m1 := snd (build example_activities example_targets example_solver
                   example_conn no_rng mismatched_model) in
  params m1 !! conn_id example_conn = Some (BuiltConn new_built_connection) /\
  solves m1 = solves mismatched_model /\
  forall w, connection w = example_conn ->
    build_solver example_activities example_targets example_solver w no_rng
      mismatched_model = (Err ValueError, m1) /\
    forall rng',
      build_solver example_activities example_targets example_solver w rng'
        m1 = (Err IndexError, m1).
Proof.
  refine (failed_build_is_not_retried example_activities example_targets
            example_solver example_conn no_rng mismatched_model ValueError
            _ _).
  - reflexivity.
  - vm_compute. reflexivity.
Defined.

Lemma index_maps_are_consecutive_witness :
  exists bc,
    params built_model !! conn_id example_conn = Some (BuiltConn bc) /\
    length (pre_idx_dim_map bc) = 2 /\
    length (pre_idx_neurons_map bc) = 2.
Proof.
  destruct (index_maps_are_consecutive example_activities example_targets
              example_solver (request 0 Inhibitory) no_rng matching_model
              (Owner 3) built_model) as (bc & Hp & Hd & Hn & _).
  - reflexivity.
  - vm_compute. reflexivity.
  - exists bc. split; [exact Hp|]. split; [exact Hd|exact Hn].
Defined.

Lemma no_pre_raises_unbound_local_witness :
  fst (build_solver example_activities example_targets example_solver
         {| connection := conn_without_pre; pre_idx := 0;
            synapse_type_of := Excitatory |} no_rng matching_model) =
  Err (UnboundLocalError "eval_points").
Proof.
  apply (no_pre_raises_unbound_local example_activities example_targets
           example_solver
           {| connection := conn_without_pre; pre_idx := 0;
              synapse_type_of := Excitatory |} no_rng matching_model).
  - reflexivity.
  - reflexivity.
  - discriminate.
Defined.

Lemma non_dense_is_never_solved_witness :
  solves (snd (build_solver example_activities example_targets example_solver
                 {| connection := conn_not_dense; pre_idx := 0;
                    synapse_type_of := Excitatory |} no_rng matching_model)) =
  solves matching_model.
Proof.
  apply (non_dense_is_never_solved example_activities example_targets
           example_solver
           {| connection := conn_not_dense; pre_idx := 0;
              synapse_type_of := Excitatory |} no_rng matching_model).
  - reflexivity.
  - reflexivity.
Defined.

End BuilderMore.
